(** * cipherseal: keyed LSB watermarking, verified against its specification

    A shallow embedding of [src/service/core/watermarker.py], of the
    location generator of [src/service/api/watermarker.py] and of [main_cli]
    of [src/service/cli.py].

    Conventions of the embedding:
    - Python [int] is [Z]; sizes, coordinates and loop counters that only ever
      come from [range] or [len] are [nat].
    - A Python [str] is the list of its code points ([pystr]); [bytes] and
      [bytearray] are lists of integers in [0, 256).
    - The bit strings the codec builds out of the characters '0' and '1' are
      lists of booleans ([true] for '1').
    - Exceptions are explicit: a computation yields [Ok v], [Raise e], or
      [Diverge] when a loop of the runtime library did not finish within the
      budget of its model.
    - An opened image is its size together with the table [pixels] that
      Pillow's pixel access object indexes by [(x, y)].  Decoding and encoding
      of image files is outside the model: [add_watermark_image] yields the
      image it would save, [detect_watermark_image] takes the image it would
      open, and Pillow is taken to be installed.  The command line works
      on paths: there [img.save] is a parameter, the image a later run reads
      from the file it writes, or the exception it raises.
    - [random.Random] is a parameter ([PRNG]).  General statements assume the
      documented contract of its [_randbelow]; evaluations at concrete inputs
      run the generator of the Python runtime, [MT19937]. *)

From Stdlib Require Import ZArith Lia Bool ZifyNat.
From stdpp Require Import base tactics option list numbers gmap.

Set Default Proof Using "Type".

(** ** Exceptions *)

Inductive exn : Set :=
| ValueError
| IndexError
| UnicodeEncodeError
| UnicodeDecodeError.

#[global] Instance exn_eq_dec : EqDecision exn.
Proof. solve_decision. Defined.

Inductive result (A : Type) : Type :=
| Ok (a : A)
| Raise (e : exn)
| Diverge.

Arguments Ok {A} a.
Arguments Raise {A} e.
Arguments Diverge {A}.

#[global] Instance result_ret : MRet result := fun A a => Ok a.
#[global] Instance result_bind : MBind result := fun A B f m =>
  match m with
  | Ok a => f a
  | Raise e => Raise e
  | Diverge => Diverge
  end.

(** [try: body  except E: handler] for one exception class. *)
Definition try_except {A} (body : result A) (E : exn) (handler : result A) : result A :=
  match body with
  | Raise e => if decide (e = E) then handler else Raise e
  | r => r
  end.

(** [try: body  except Exception: handler]. *)
Definition try_except_Exception {A} (body : result A) (handler : result A) : result A :=
  match body with
  | Raise _ => handler
  | r => r
  end.

(** ** Strings, bytes and bits *)

Abbreviation pystr := (list Z) (only parsing).
Abbreviation bitstring := (list bool) (only parsing).

(** Python sequence indexing [x[j]]: a negative index counts from the end. *)
Definition py_index (len : nat) (j : Z) : option nat :=
  if bool_decide (0 <= j < Z.of_nat len)%Z then Some (Z.to_nat j)
  else if bool_decide (- Z.of_nat len <= j < 0)%Z then Some (Z.to_nat (Z.of_nat len + j))
  else None.

(** [str.encode('utf-8')] of one code point; lone surrogates and integers
    that are no code point are not encodable. *)
Definition utf8_encode_char (c : Z) : option (list Z) :=
  if (c <? 0)%Z then None
  else if (c <? 0x80)%Z then Some [c]
  else if (c <? 0x800)%Z then
    Some [Z.lor 0xC0 (Z.shiftr c 6); Z.lor 0x80 (Z.land c 0x3F)]
  else if (c <? 0x10000)%Z then
    if ((0xD800 <=? c) && (c <=? 0xDFFF))%Z then None
    else Some [Z.lor 0xE0 (Z.shiftr c 12);
               Z.lor 0x80 (Z.land (Z.shiftr c 6) 0x3F);
               Z.lor 0x80 (Z.land c 0x3F)]
  else if (c <? 0x110000)%Z then
    Some [Z.lor 0xF0 (Z.shiftr c 18);
          Z.lor 0x80 (Z.land (Z.shiftr c 12) 0x3F);
          Z.lor 0x80 (Z.land (Z.shiftr c 6) 0x3F);
          Z.lor 0x80 (Z.land c 0x3F)]
  else None.

Fixpoint utf8_encode (s : pystr) : option (list Z) :=
  match s with
  | [] => Some []
  | c :: s' =>
      match utf8_encode_char c, utf8_encode s' with
      | Some bs, Some rest => Some (bs ++ rest)
      | _, _ => None
      end
  end.

Definition str_encode_utf8 (s : pystr) : result (list Z) :=
  match utf8_encode s with
  | Some bs => Ok bs
  | None => Raise UnicodeEncodeError
  end.

(** ** The pseudo-random generator interface

    [random.Random] belongs to the Python runtime.  The codec uses its
    constructor and [shuffle]; [shuffle] is written in Python on top of
    [_randbelow], which is the primitive taken as a parameter here.
    [_randbelow n g] is [None] when the model of its rejection loop ran out
    of budget. *)

Class PRNG := {
  rng : Type;
  Random : Z -> rng;
  _randbelow : Z -> rng -> option (Z * rng);
}.

(** The documented contract of [_randbelow]: "Return a random int in the
    range [0,n).  Defined for n > 0." *)
Definition lawful (G : PRNG) : Prop :=
  forall (n : Z) (g : rng), (0 < n)%Z ->
    exists r g', _randbelow n g = Some (r, g') /\ (0 <= r < n)%Z.

Section Shuffle.
Context {G : PRNG} {A : Type}.

(** [x[i], x[j] = x[j], x[i]] *)
Definition swap (x : list A) (i : nat) (j : Z) : result (list A) :=
  match py_index (length x) j with
  | None => Raise IndexError
  | Some j' =>
      match x !! j', x !! i with
      | Some xj, Some xi => Ok (<[j' := xi]> (<[i := xj]> x))
      | _, _ => Raise IndexError
      end
  end.

(** [for i in reversed(range(1, len(x))): j = randbelow(i + 1); swap] *)
Fixpoint shuffle_loop (i : nat) (x : list A) (g : rng) : result (list A * rng) :=
  match i with
  | O => Ok (x, g)
  | S i' =>
      match _randbelow (Z.of_nat i + 1) g with
      | None => Diverge
      | Some (j, g') =>
          x' ← swap x i j;
          shuffle_loop i' x' g'
      end
  end.

Definition shuffle (x : list A) (g : rng) : result (list A * rng) :=
  shuffle_loop (length x - 1) x g.
End Shuffle.

(** ** The generator of the Python runtime: MT19937

    [random.Random(seed)] for an integer seed below [2^32] calls
    [init_by_array] with the one-word key [[seed]]; [getrandbits] and the
    rejection loop of [_randbelow] follow.  Every [uint32_t] operation of the
    C module has its wrap-around written out with [u32]. *)

Module MT19937.
Definition N : nat := 624.
Definition M : nat := 397.
Definition MATRIX_A : Z := 0x9908b0df.
Definition UPPER_MASK : Z := 0x80000000.
Definition LOWER_MASK : Z := 0x7fffffff.

Definition u32 (z : Z) : Z := Z.land z 0xFFFFFFFF.

Record RandomObject := { state : list Z; index : nat }.

Definition at_ (mt : list Z) (i : nat) : Z := nth i mt 0%Z.

Definition init_genrand (s : Z) : RandomObject :=
  let step (mt : list Z) (mti : nat) : list Z :=
    let prev := at_ mt (mti - 1) in
    <[mti := u32 (1812433253 * Z.lxor prev (Z.shiftr prev 30) + Z.of_nat mti)]> mt in
  {| state := fold_left step (seq 1 (N - 1)) (<[0%nat := u32 s]> (replicate N 0%Z));
     index := N |}.

Definition init_by_array (init_key : list Z) : RandomObject :=
  let key_length := length init_key in
  let wrap (mt : list Z) (i : nat) : list Z * nat :=
    if (N <=? i)%nat then (<[0%nat := at_ mt (N - 1)]> mt, 1%nat) else (mt, i) in
  let first '(mt, i, j) :=
    let prev := at_ mt (i - 1) in
    let mt := <[i := u32 (Z.lxor (at_ mt i) (Z.lxor prev (Z.shiftr prev 30) * 1664525)
                          + at_ init_key j + Z.of_nat j)]> mt in
    let '(mt, i) := wrap mt (S i) in
    let j := if (key_length <=? S j)%nat then 0%nat else S j in
    (mt, i, j) in
  let second '(mt, i) :=
    let prev := at_ mt (i - 1) in
    let mt := <[i := u32 (Z.lxor (at_ mt i) (Z.lxor prev (Z.shiftr prev 30) * 1566083941)
                          - Z.of_nat i)]> mt in
    wrap mt (S i) in
  let '(mt, i, _) :=
    Nat.iter (Nat.max N key_length) first (state (init_genrand 19650218), 1%nat, 0%nat) in
  let '(mt, _) := Nat.iter (N - 1) second (mt, i) in
  {| state := <[0%nat := 0x80000000%Z]> mt; index := N |}.

Definition mag01 (y : Z) : Z := if Z.testbit y 0 then MATRIX_A else 0%Z.

(** One word of the regeneration: [mt[kk] = mt[src] ^ (y >> 1) ^ mag01[y & 1]]
    with [y] made of the top bit of [mt[kk]] and the low bits of [mt[nxt]]. *)
Definition twist_word (mt : list Z) (kk nxt src : nat) : list Z :=
  let y := Z.lor (Z.land (at_ mt kk) UPPER_MASK) (Z.land (at_ mt nxt) LOWER_MASK) in
  <[kk := Z.lxor (Z.lxor (at_ mt src) (Z.shiftr y 1)) (mag01 y)]> mt.

Definition regenerate (mt : list Z) : list Z :=
  let mt := fold_left (fun mt kk => twist_word mt kk (kk + 1) (kk + M)) (seq 0 (N - M)) mt in
  let mt := fold_left (fun mt kk => twist_word mt kk (kk + 1) (kk + M - N))
                      (seq (N - M) (M - 1)) mt in
  twist_word mt (N - 1) 0 (M - 1).

Definition genrand_uint32 (self : RandomObject) : Z * RandomObject :=
  let self :=
    if (N <=? index self)%nat then {| state := regenerate (state self); index := 0 |}
    else self in
  let y := at_ (state self) (index self) in
  let y := Z.lxor y (Z.shiftr y 11) in
  let y := Z.lxor y (Z.land (u32 (Z.shiftl y 7)) 0x9d2c5680) in
  let y := Z.lxor y (Z.land (u32 (Z.shiftl y 15)) 0xefc60000) in
  let y := Z.lxor y (Z.shiftr y 18) in
  (y, {| state := state self; index := S (index self) |}).

(** The word loop of [getrandbits] for [k > 32]: words are produced least
    significant first and the last one keeps its top [k] bits. *)
Fixpoint getrandbits_words (words : nat) (k : Z) (shift : Z) (self : RandomObject)
  : Z * RandomObject :=
  match words with
  | O => (0%Z, self)
  | S words' =>
      let '(r, self) := genrand_uint32 self in
      let r := if (k <? 32)%Z then Z.shiftr r (32 - k) else r in
      let '(hi, self) := getrandbits_words words' (k - 32) (shift + 32) self in
      (Z.lor (Z.shiftl r shift) hi, self)
  end.

Definition getrandbits (k : Z) (self : RandomObject) : Z * RandomObject :=
  if (k <=? 0)%Z then (0%Z, self)
  else if (k <=? 32)%Z then
    let '(r, self) := genrand_uint32 self in (Z.shiftr r (32 - k), self)
  else getrandbits_words (Z.to_nat ((k - 1) / 32 + 1)) k 0 self.

(** [int.bit_length] *)
Definition bit_length (n : Z) : Z :=
  if (n =? 0)%Z then 0%Z else Z.log2 (Z.abs n) + 1.

(** [while r >= n: r = getrandbits(k)], cut off after [budget] draws. *)
Fixpoint reject_loop (budget : nat) (n k : Z) (r : Z) (self : RandomObject)
  : option (Z * RandomObject) :=
  if (r >=? n)%Z then
    match budget with
    | O => None
    | S budget' =>
        let '(r, self) := getrandbits k self in
        reject_loop budget' n k r self
    end
  else Some (r, self).

Definition _randbelow_with_getrandbits (budget : nat) (n : Z) (self : RandomObject)
  : option (Z * RandomObject) :=
  let k := bit_length n in
  let '(r, self) := getrandbits k self in
  reject_loop budget n k r self.

(** [random.Random(seed)] for [0 <= seed < 2^32]. *)
Definition seed (n : Z) : RandomObject := init_by_array [Z.abs n].
End MT19937.

(** [random.Random] of the Python runtime as an instance of the interface;
    [budget] bounds the draws of one call of [_randbelow]. *)
Definition mt19937 (budget : nat) : PRNG :=
  {| rng := MT19937.RandomObject;
     Random := MT19937.seed;
     _randbelow := MT19937._randbelow_with_getrandbits budget |}.

(** ** Bit strings *)

(** [format(byte, '08b')]: the eight binary digits, most significant first. *)
Definition format_08b (byte : Z) : bitstring :=
  map (fun i => Z.testbit byte (Z.of_nat i)) [7; 6; 5; 4; 3; 2; 1; 0]%nat.

(** [int(s, 2)] on a string of binary digits; the empty string is refused. *)
Definition int_base2 (s : bitstring) : result Z :=
  match s with
  | [] => Raise ValueError
  | _ => Ok (fold_left (fun acc b => 2 * acc + Z.b2z b)%Z s 0%Z)
  end.

(** [bytearray.append(v)] *)
Definition bytearray_append (byte_array : list Z) (v : Z) : result (list Z) :=
  if bool_decide (0 <= v < 256)%Z then Ok (byte_array ++ [v]) else Raise ValueError.

(** [range(0, stop, step)] *)
Definition range_step (stop step : nat) : list nat :=
  map (fun k => k * step)%nat (seq 0 ((stop + step - 1) / step)).

(** [s.endswith(suffix)] *)
Definition endswith (s suffix : bitstring) : bool :=
  (length suffix <=? length s)%nat
  && bool_decide (drop (length s - length suffix) s = suffix).

(** ** [bytes.decode('utf-8', errors='replace')]

    A well-formed sequence decodes to its code point; every maximal subpart of
    an ill-formed sequence becomes one U+FFFD. *)

Definition REPLACEMENT : Z := 0xFFFD.

Definition in_range (lo hi b : Z) : bool := ((lo <=? b) && (b <=? hi))%Z.

Definition second_ok3 (b0 b1 : Z) : bool :=
  if (b0 =? 0xE0)%Z then in_range 0xA0 0xBF b1
  else if (b0 =? 0xED)%Z then in_range 0x80 0x9F b1
  else in_range 0x80 0xBF b1.

Definition second_ok4 (b0 b1 : Z) : bool :=
  if (b0 =? 0xF0)%Z then in_range 0x90 0xBF b1
  else if (b0 =? 0xF4)%Z then in_range 0x80 0x8F b1
  else in_range 0x80 0xBF b1.

Fixpoint utf8_decode_replace (bs : list Z) : pystr :=
  match bs with
  | [] => []
  | b0 :: t0 =>
      if (b0 <? 0x80)%Z then b0 :: utf8_decode_replace t0
      else if in_range 0xC2 0xDF b0 then
        match t0 with
        | [] => [REPLACEMENT]
        | b1 :: t1 =>
            if in_range 0x80 0xBF b1
            then (b0 * 64 + b1 - (0xC0 * 64 + 0x80))%Z :: utf8_decode_replace t1
            else REPLACEMENT :: utf8_decode_replace t0
        end
      else if in_range 0xE0 0xEF b0 then
        match t0 with
        | [] => [REPLACEMENT]
        | b1 :: t1 =>
            if second_ok3 b0 b1 then
              match t1 with
              | [] => [REPLACEMENT]
              | b2 :: t2 =>
                  if in_range 0x80 0xBF b2
                  then (b0 * 4096 + b1 * 64 + b2
                        - (0xE0 * 4096 + 0x80 * 64 + 0x80))%Z :: utf8_decode_replace t2
                  else REPLACEMENT :: utf8_decode_replace t1
              end
            else REPLACEMENT :: utf8_decode_replace t0
        end
      else if in_range 0xF0 0xF4 b0 then
        match t0 with
        | [] => [REPLACEMENT]
        | b1 :: t1 =>
            if second_ok4 b0 b1 then
              match t1 with
              | [] => [REPLACEMENT]
              | b2 :: t2 =>
                  if in_range 0x80 0xBF b2 then
                    match t2 with
                    | [] => [REPLACEMENT]
                    | b3 :: t3 =>
                        if in_range 0x80 0xBF b3
                        then (b0 * 262144 + b1 * 4096 + b2 * 64 + b3
                              - (0xF0 * 262144 + 0x80 * 4096 + 0x80 * 64 + 0x80))%Z
                             :: utf8_decode_replace t3
                        else REPLACEMENT :: utf8_decode_replace t2
                    end
                  else REPLACEMENT :: utf8_decode_replace t1
              end
            else REPLACEMENT :: utf8_decode_replace t0
        end
      else REPLACEMENT :: utf8_decode_replace t0
  end.

(** With [errors='replace'] the UTF-8 decoder does not raise. *)
Definition decode_utf8_replace (byte_array : list Z) : result pystr :=
  Ok (utf8_decode_replace byte_array).

(** [bytes.decode('latin-1')]: every byte is its own code point. *)
Definition decode_latin1 (byte_array : list Z) : result pystr := Ok byte_array.

(** ** Images

    [Image.open(path).convert("RGB")] yields the size and the pixel access
    object; [pixels[x, y]] outside the image raises [IndexError]. *)

Abbreviation pixel := (Z * Z * Z)%type (only parsing).

Record image := { size : nat * nat; pixels : gmap (nat * nat) pixel }.

Definition pixels_get (px : gmap (nat * nat) pixel) (x y : nat) : result pixel :=
  match px !! (x, y) with
  | Some p => Ok p
  | None => Raise IndexError
  end.

Definition pixels_set (px : gmap (nat * nat) pixel) (x y : nat) (p : pixel)
  : result (gmap (nat * nat) pixel) :=
  match px !! (x, y) with
  | Some _ => Ok (<[(x, y) := p]> px)
  | None => Raise IndexError
  end.

(** ** The keyed location generator *)

Abbreviation location := (nat * nat * nat)%type (only parsing).

(** [seed_val = (seed_val * 31 + char_code) & 0xFFFFFFFF] over the key bytes. *)
Definition seed_fold (key_bytes : list Z) : Z :=
  fold_left (fun seed_val char_code => Z.land (seed_val * 31 + char_code) 0xFFFFFFFF)
            key_bytes 0%Z.

Module Core.

(** ["1111111111111110"] *)
Definition DELIMITER : bitstring :=
  [true; true; true; true; true; true; true; true;
   true; true; true; true; true; true; true; false].

(** [''.join(format(byte, '08b') for byte in text_string.encode('utf-8'))] *)
Definition _str_to_binary (text_string : pystr) : result bitstring :=
  bs ← str_encode_utf8 text_string;
  Ok (bs ≫= format_08b).

(** The loop of [_binary_to_str] over [range(0, len(binary_string), 8)]. *)
Fixpoint assemble_bytes (idx : list nat) (binary_string : bitstring) (byte_array : list Z)
  : result (list Z) :=
  match idx with
  | [] => Ok byte_array
  | i :: idx' =>
      let byte_segment := take 8 (drop i binary_string) in
      if (length byte_segment <? 8)%nat then Ok byte_array
      else
        byte_array ←
          try_except (v ← int_base2 byte_segment; bytearray_append byte_array v)
                     ValueError
                     (bytearray_append byte_array 63);
        assemble_bytes idx' binary_string byte_array
  end.

Definition _binary_to_str (binary_string : bitstring) : result pystr :=
  let binary_string :=
    if negb (length binary_string mod 8 =? 0)%nat
    then take (length binary_string / 8 * 8) binary_string
    else binary_string in
  byte_array ← assemble_bytes (range_step (length binary_string) 8) binary_string [];
  try_except (decode_utf8_replace byte_array)
             UnicodeDecodeError
             (decode_latin1 byte_array).

(** [for y_coord in range(height): for x_coord in range(width):
     pixel_coords.append((x_coord, y_coord))] *)
Definition all_pixel_coords (width height : nat) : list (nat * nat) :=
  y_coord ← seq 0 height; x_coord ← seq 0 width; [(x_coord, y_coord)].

(** [for y_coord in range(height): for x_coord in range(width):
     for channel_idx in range(3):
       locations.append((x_coord, y_coord, channel_idx))] *)
Definition all_locations (width height : nat) : list location :=
  y_coord ← seq 0 height; x_coord ← seq 0 width; channel_idx ← seq 0 3;
  [(x_coord, y_coord, channel_idx)].

Section Codec.
Context {G : PRNG}.

Definition _get_pixel_sequence (width height : nat) (secret_key_string : pystr)
  : result (list location) :=
  key_bytes ← str_encode_utf8 secret_key_string;
  let seed_val := seed_fold key_bytes in
  let rng0 := Random seed_val in
  '(_, rng1) ← shuffle (all_pixel_coords width height) rng0;
  '(locations, _) ← shuffle (all_locations width height) rng1;
  Ok locations.

(** [channel_value = (channel_value & ~1) | bit] *)
Definition set_lsb (channel_value bit_to_embed : Z) : Z :=
  Z.lor (Z.land channel_value (Z.lnot 1)) bit_to_embed.

(** The embedding loop of [add_watermark_image]; the state is the pixel
    table and [embedded_bits_count]. *)
Fixpoint embed_loop (pixel_sequence : list location) (binary_watermark : bitstring)
    (px : gmap (nat * nat) pixel) (embedded_bits_count : nat)
  : result (gmap (nat * nat) pixel * nat) :=
  match pixel_sequence with
  | [] => Ok (px, embedded_bits_count)
  | (x_coord, y_coord, channel_idx) :: rest =>
      if (embedded_bits_count <? length binary_watermark)%nat then
        '(r, g, b) ← pixels_get px x_coord y_coord;
        bit_to_embed ←
          match binary_watermark !! embedded_bits_count with
          | Some c => Ok (Z.b2z c)
          | None => Raise IndexError
          end;
        let '(r, g, b) :=
          if (channel_idx =? 0)%nat then (set_lsb r bit_to_embed, g, b)
          else if (channel_idx =? 1)%nat then (r, set_lsb g bit_to_embed, b)
          else (r, g, set_lsb b bit_to_embed) in
        px ← pixels_set px x_coord y_coord (r, g, b);
        embed_loop rest binary_watermark px (S embedded_bits_count)
      else Ok (px, embedded_bits_count)
  end.

(** [Ok (Some img)]: the function returns [True] and [img] is what it
    saves; [Ok None]: it returns [False]. *)
Definition add_watermark_image (img : image) (watermark_text secret_key : pystr)
  : result (option image) :=
  try_except_Exception
    (let '(width, height) := size img in
     bits ← _str_to_binary watermark_text;
     let binary_watermark := bits ++ DELIMITER in
     let watermark_len_bits := length binary_watermark in
     let total_bits_available := (width * height * 3)%nat in
     if (total_bits_available <? watermark_len_bits)%nat then Ok None
     else
       pixel_sequence ← _get_pixel_sequence width height secret_key;
       if (length pixel_sequence <? watermark_len_bits)%nat then Ok None
       else
         '(px, embedded_bits_count) ←
           embed_loop pixel_sequence binary_watermark (pixels img) 0;
         if (embedded_bits_count <? watermark_len_bits)%nat then Ok None
         else Ok (Some {| size := size img; pixels := px |}))
    (Ok None).

(** [str(channel_value & 1)] as a binary digit *)
Definition lsb (channel_value : Z) : bool := (Z.land channel_value 1 =? 1)%Z.

(** The extraction loop of [detect_watermark_image]; the state is
    [binary_watermark_extracted] and [extracted_bits_count]. *)
Fixpoint extract_loop (pixel_sequence : list location) (px : gmap (nat * nat) pixel)
    (max_bits_to_extract : Z) (binary_watermark_extracted : bitstring)
    (extracted_bits_count : nat)
  : result (option pystr) :=
  match pixel_sequence with
  | [] => Ok None
  | (x_coord, y_coord, channel_idx) :: rest =>
      if (Z.of_nat extracted_bits_count <? max_bits_to_extract)%Z then
        '(r, g, b) ← pixels_get px x_coord y_coord;
        let extracted_bit :=
          if (channel_idx =? 0)%nat then lsb r
          else if (channel_idx =? 1)%nat then lsb g
          else lsb b in
        let binary_watermark_extracted := binary_watermark_extracted ++ [extracted_bit] in
        if endswith binary_watermark_extracted DELIMITER then
          let watermark_payload_binary :=
            take (length binary_watermark_extracted - length DELIMITER)
                 binary_watermark_extracted in
          text ← _binary_to_str watermark_payload_binary;
          Ok (Some text)
        else
          extract_loop rest px max_bits_to_extract binary_watermark_extracted
                       (S extracted_bits_count)
      else Ok None
  end.

(** [Ok (Some text)]: the payload found; [Ok None]: the function returns
    [None]. *)
Definition detect_watermark_image (img : image) (secret_key : pystr)
    (expected_max_len_chars : Z)
  : result (option pystr) :=
  try_except_Exception
    (let '(width, height) := size img in
     pixel_sequence ← _get_pixel_sequence width height secret_key;
     let max_bits_to_extract :=
       (expected_max_len_chars * 8 * 2 + Z.of_nat (length DELIMITER))%Z in
     extract_loop pixel_sequence (pixels img) max_bits_to_extract [] 0)
    (Ok None).
End Codec.
End Core.

Module Api.
(** [for y_coord in range(height): for x_coord in range(width):
     for channel_idx in range(3):
       locations.append((y_coord, x_coord, channel_idx))] *)
Definition all_locations (width height : nat) : list location :=
  y_coord ← seq 0 height; x_coord ← seq 0 width; channel_idx ← seq 0 3;
  [(y_coord, x_coord, channel_idx)].

Section Generator.
Context {G : PRNG}.

Definition _get_pixel_sequence (width height : nat) (secret_key_string : pystr)
  : result (list location) :=
  key_bytes ← str_encode_utf8 secret_key_string;
  let seed_val := seed_fold key_bytes in
  let rng0 := Random seed_val in
  '(locations, _) ← shuffle (all_locations width height) rng0;
  Ok locations.
End Generator.
End Api.

(** ** A second generator

    A small linear congruential generator.  It meets the contract of
    [_randbelow] by construction and serves to run the general theorems on
    concrete inputs. *)

Definition lcg : PRNG :=
  {| rng := Z;
     Random := fun seed => seed;
     _randbelow := fun n g =>
       let g' := ((g * 1103515245 + 12345) mod 2147483648)%Z in
       Some (((g' / 65536) mod n)%Z, g') |}.

(** ** Vocabulary of the statements *)

(** Every pixel inside the size of the image is present in the pixel table. *)
Definition wf_image (img : image) : Prop :=
  forall x y : nat, (x < fst (size img))%nat -> (y < snd (size img))%nat ->
    is_Some (pixels img !! (x, y)).

(** The channel value a location selects, as the codec's [if]/[elif]/[else]
    selects it. *)
Definition channel (p : pixel) (channel_idx : nat) : Z :=
  let '(r, g, b) := p in
  if (channel_idx =? 0)%nat then r else if (channel_idx =? 1)%nat then g else b.

Definition channel_at (px : gmap (nat * nat) pixel) (loc : location) : option Z :=
  let '(x, y, channel_idx) := loc in
  p ← px !! (x, y); Some (channel p channel_idx).

(** The pixel after one embedding step on the selected channel. *)
Definition write_bit (p : pixel) (channel_idx : nat) (bit_to_embed : Z) : pixel :=
  let '(r, g, b) := p in
  if (channel_idx =? 0)%nat then (Core.set_lsb r bit_to_embed, g, b)
  else if (channel_idx =? 1)%nat then (r, Core.set_lsb g bit_to_embed, b)
  else (r, g, Core.set_lsb b bit_to_embed).

(** The least-significant bits stored along a sequence of locations. *)
Definition lsb_at (px : gmap (nat * nat) pixel) (loc : location) : option bool :=
  Core.lsb <$> channel_at px loc.

Definition lsb_stream (px : gmap (nat * nat) pixel) (locs : list location)
  : option bitstring :=
  mapM (lsb_at px) locs.

(** Eight binary digits, most significant first, as a byte; an incomplete
    last group is dropped. *)
Fixpoint bits_to_bytes (s : bitstring) : list Z :=
  match s with
  | b7 :: b6 :: b5 :: b4 :: b3 :: b2 :: b1 :: b0 :: rest =>
      (128 * Z.b2z b7 + 64 * Z.b2z b6 + 32 * Z.b2z b5 + 16 * Z.b2z b4
       + 8 * Z.b2z b3 + 4 * Z.b2z b2 + 2 * Z.b2z b1 + Z.b2z b0)%Z
      :: bits_to_bytes rest
  | _ => []
  end.

(** The shapes of an encoded code point, in the terms the decoder tests. *)
Inductive encoded_as (c : Z) : list Z -> Prop :=
| enc1 : (0 <= c < 128)%Z -> encoded_as c [c]
| enc2 b0 b1 :
    (194 <= b0 <= 223)%Z -> (128 <= b1 <= 191)%Z ->
    (b0 * 64 + b1 - 12416 = c)%Z -> encoded_as c [b0; b1]
| enc3 b0 b1 b2 :
    (224 <= b0 <= 239)%Z -> second_ok3 b0 b1 = true ->
    (128 <= b1 <= 191)%Z -> (128 <= b2 <= 191)%Z ->
    (b0 * 4096 + b1 * 64 + b2 - 925824 = c)%Z -> encoded_as c [b0; b1; b2]
| enc4 b0 b1 b2 b3 :
    (240 <= b0 <= 244)%Z -> second_ok4 b0 b1 = true ->
    (128 <= b1 <= 191)%Z -> (128 <= b2 <= 191)%Z -> (128 <= b3 <= 191)%Z ->
    (b0 * 262144 + b1 * 4096 + b2 * 64 + b3 - 63447168 = c)%Z ->
    encoded_as c [b0; b1; b2; b3].

(** ** The generator as the specification words it

    Section 4.1 of the specification: fold the key bytes into a 32-bit seed,
    seed the generator, build the ordered list of all [(x, y, channel)]
    triples, shuffle that list once. *)

Module Spec.
Section Generator.
Context {G : PRNG}.

Definition seed_of_key (key_bytes : list Z) : Z :=
  fold_left (fun seed byteValue => (seed * 31 + byteValue) mod 2 ^ 32)%Z key_bytes 0%Z.

Definition ordered_locations (width height : nat) : list location :=
  y ← seq 0 height; x ← seq 0 width; channel ← seq 0 3; [(x, y, channel)].

Definition generate (width height : nat) (secretKey : pystr) : result (list location) :=
  key_bytes ← str_encode_utf8 secretKey;
  let generator := Random (seed_of_key key_bytes) in
  '(locationSequence, _) ← shuffle (ordered_locations width height) generator;
  Ok locationSequence.
End Generator.
End Spec.

(** ** Sample inputs *)

(** An image of one colour. *)
Definition solid_image (width height : nat) (p : pixel) : image :=
  {| size := (width, height);
     pixels := list_to_map ((fun xy => (xy, p)) <$> Core.all_pixel_coords width height) |}.

(** A 4 by 2 image: 24 bit slots, room for one payload byte and the delimiter. *)
Definition sample_image : image := solid_image 4 2 (200, 17, 64)%Z.

(** ** Vocabulary of the further properties *)

(** A code point [str.encode('utf-8')] accepts: inside the Unicode range and
    no surrogate. *)
Definition scalar_value (c : Z) : Prop :=
  (0 <= c < 0x110000)%Z /\ ~ (0xD800 <= c <= 0xDFFF)%Z.

(** Every channel value of the image is an 8-bit value. *)
Definition rgb8 (img : image) : Prop :=
  forall (xy : nat * nat) (r g b : Z), pixels img !! xy = Some (r, g, b) ->
    (0 <= r <= 255 /\ 0 <= g <= 255 /\ 0 <= b <= 255)%Z.

(** Every channel value of the image has the same least-significant bit. *)
Definition uniform_lsb (bit : bool) (img : image) : Prop :=
  forall (xy : nat * nat) (r g b : Z), pixels img !! xy = Some (r, g, b) ->
    Core.lsb r = bit /\ Core.lsb g = bit /\ Core.lsb b = bit.

(** The key bytes as a polynomial in 31, before any reduction. *)
Definition horner31 (key_bytes : list Z) : Z :=
  fold_left (fun acc b => acc * 31 + b)%Z key_bytes 0%Z.

(** The functorial action of the result monad. *)
Definition result_map {A B} (f : A -> B) (r : result A) : result B :=
  match r with
  | Ok a => Ok (f a)
  | Raise e => Raise e
  | Diverge => Diverge
  end.

Definition swap_xy (loc : location) : location :=
  let '(a, b, channel_idx) := loc in (b, a, channel_idx).

(** ** The command line ([cli.py])

    [main_cli] after [argparse]: the parsed arguments are a record, the file
    at [input_path] is the image it holds ([None] when there is no such
    file), [os.environ.get] is an optional string, [generate_watermark()] is
    the string it returned.  Pillow's [img.save] and the two functions of
    the text watermarking library are parameters.  The outcome is the exit
    status, the image a later run reads at [output_path] when the run saved
    one, and the watermark the detection reports. *)

Module Cli.
Inductive action_choice : Set := add | detect.
Inductive media_choice : Set := image_media | text_media | video_media.

Record Namespace := {
  action : action_choice;
  media_type : media_choice;
  output_path : option pystr;
  watermark : option pystr;
  max_len : Z;
}.

Record Outcome := {
  exit_code : Z;
  saved : option image;
  reported : option pystr;
}.

(** Truth value of an optional string: [None] and [""] are false. *)
Definition truthy (s : option pystr) : bool :=
  match s with
  | Some (_ :: _) => true
  | _ => false
  end.

Definition exit_with (code : Z) : Outcome :=
  {| exit_code := code; saved := None; reported := None |}.

Section Main.
Context {G : PRNG}.

(** [img.save(path)] of Pillow: the image that
    [Image.open(path).convert("RGB")] reads from the file it writes, or the
    exception it raises.  The format follows the extension of the path: an
    unknown extension raises [ValueError], a lossy format gives back another
    image. *)
Variable image_save : image -> pystr -> result image.

(** [add_watermark_text] and [detect_watermark_text] on the file at
    [input_path]; the first is given the output path, the watermark and the
    key, the second the key. *)
Variable add_watermark_text : pystr -> pystr -> pystr -> bool.
Variable detect_watermark_text : pystr -> option pystr.

(** [add_watermark_image] on paths: a missing input file is a caught
    [FileNotFoundError]; after the embedding, [img.save(output_image_path)]
    runs inside the same [try], so an exception it raises makes the function
    return [False]. *)
Definition add_watermark_image_at (input : option image)
    (output_image_path watermark_text secret_key : pystr)
  : result (option image) :=
  match input with
  | None => Ok None
  | Some img =>
      marked ← Core.add_watermark_image img watermark_text secret_key;
      match marked with
      | None => Ok None
      | Some img' =>
          try_except_Exception
            (written ← image_save img' output_image_path; Ok (Some written))
            (Ok None)
      end
  end.

Definition detect_watermark_image_at (input : option image) (secret_key : pystr)
    (expected_max_len_chars : Z) : result (option pystr) :=
  match input with
  | None => Ok None
  | Some img => Core.detect_watermark_image img secret_key expected_max_len_chars
  end.

(** The exit status is the value [main_cli] returns, or 2 where
    [parser.error] ends the process.  For ["video"] neither branch of the
    [if]/[elif] runs: [success] stays [False] and [detected_wm] stays [None]. *)
Definition main_cli (libraries_missing : bool) (environ_key : option pystr)
    (args : Namespace) (input : option image) (generated_watermark : pystr)
  : result Outcome :=
  if libraries_missing then Ok (exit_with 1)
  else if negb (truthy environ_key) then Ok (exit_with 1)
  else
    let secret_key := default [] environ_key in
    match action args with
    | add =>
        if negb (truthy (output_path args)) then Ok (exit_with 2)
        else
          let output_image_path := default [] (output_path args) in
          let watermark_to_embed :=
            if negb (truthy (watermark args)) then generated_watermark
            else default [] (watermark args) in
          match media_type args with
          | image_media =>
              success ←
                add_watermark_image_at input output_image_path watermark_to_embed
                                       secret_key;
              match success with
              | Some written =>
                  Ok {| exit_code := 0; saved := Some written; reported := None |}
              | None => Ok (exit_with 1)
              end
          | text_media =>
              if add_watermark_text output_image_path watermark_to_embed secret_key
              then Ok (exit_with 0) else Ok (exit_with 1)
          | video_media => Ok (exit_with 1)
          end
    | detect =>
        detected_wm ←
          match media_type args with
          | image_media => detect_watermark_image_at input secret_key (max_len args)
          | text_media => Ok (detect_watermark_text secret_key)
          | video_media => Ok None
          end;
        if truthy detected_wm
        then Ok {| exit_code := 0; saved := None; reported := detected_wm |}
        else Ok (exit_with 1)
    end.
End Main.
End Cli.

(** A saver that knows the extension [.png] only, and writes it without
    loss. *)
Definition png_save (img : image) (path : pystr) : result image :=
  if (4 <? length path)%nat
     && bool_decide (drop (length path - 4) path = [46; 112; 110; 103]%Z)
  then Ok img else Raise ValueError.

(** * Verification *)

(** ** The result monad *)

Lemma bind_Ok {A B} (m : result A) (f : A -> result B) (b : B) :
  m ≫= f = Ok b <-> exists a, m = Ok a /\ f a = Ok b.
Proof.
  destruct m; simpl; split; try (intros (? & ? & ?)); try discriminate; eauto.
  congruence.
Qed.

(** ** The shuffle is a permutation *)

Lemma py_index_nonneg (len : nat) (j : Z) :
  (0 <= j < Z.of_nat len)%Z -> py_index len j = Some (Z.to_nat j).
Proof. intros H. unfold py_index. by rewrite bool_decide_eq_true_2. Qed.

Lemma py_index_lt (len : nat) (j : Z) (k : nat) :
  py_index len j = Some k -> (k < len)%nat.
Proof.
  unfold py_index. repeat case_bool_decide; intros [= <-]; lia.
Qed.

Section ShuffleFacts.
Context {G : PRNG} {A : Type}.
Implicit Types (x : list A) (g : rng).

Lemma exchange_Permutation x (i j : nat) (xi xj : A) :
  x !! i = Some xi -> x !! j = Some xj ->
  <[j := xi]> (<[i := xj]> x) ≡ₚ x.
Proof.
  intros Hi Hj.
  pose proof (lookup_lt_Some _ _ _ Hi) as Hli.
  pose proof (lookup_lt_Some _ _ _ Hj) as Hlj.
  apply Permutation_inj. split; [by rewrite !length_insert|].
  exists (fun k => if decide (k = i) then j else if decide (k = j) then i else k).
  split.
  - intros a b. repeat case_decide; intros; subst; congruence.
  - intros k. destruct (decide (k = i)) as [->|Hki].
    + destruct (decide (i = j)) as [->|Hij].
      * rewrite list_lookup_insert_eq by (by rewrite length_insert). congruence.
      * rewrite list_lookup_insert_ne by done.
        rewrite list_lookup_insert_eq by done. congruence.
    + destruct (decide (k = j)) as [->|Hkj].
      * rewrite list_lookup_insert_eq by (by rewrite length_insert). congruence.
      * by rewrite !list_lookup_insert_ne by done.
Qed.

Lemma swap_Permutation x i j x' : swap x i j = Ok x' -> x' ≡ₚ x.
Proof.
  unfold swap. destruct (py_index _ _) as [j'|]; [|done].
  destruct (x !! j') as [xj|] eqn:Hj; [|done].
  destruct (x !! i) as [xi|] eqn:Hi; [|done].
  intros [= <-]. by apply exchange_Permutation.
Qed.

Lemma swap_total x (i : nat) (j : Z) :
  (i < length x)%nat -> (0 <= j < Z.of_nat (length x))%Z -> exists x', swap x i j = Ok x'.
Proof.
  intros Hi Hj. unfold swap. rewrite py_index_nonneg by done.
  destruct (lookup_lt_is_Some_2 x (Z.to_nat j)) as [xj ->]; [lia|].
  destruct (lookup_lt_is_Some_2 x i) as [xi ->]; [lia|]. eauto.
Qed.

Lemma shuffle_loop_Permutation i x g x' g' :
  shuffle_loop i x g = Ok (x', g') -> x' ≡ₚ x.
Proof.
  revert x g. induction i as [|i IH]; intros x g; simpl.
  - by intros [= <- <-].
  - destruct (_randbelow _ g) as [[j g1]|]; [|done].
    intros (x1 & Hsw & Hrec)%bind_Ok.
    rewrite (IH _ _ Hrec). by eapply swap_Permutation.
Qed.

Lemma shuffle_Permutation x g x' g' : shuffle x g = Ok (x', g') -> x' ≡ₚ x.
Proof. apply shuffle_loop_Permutation. Qed.

Lemma shuffle_loop_total (HG : lawful G) i x g :
  (i < length x \/ i = 0)%nat -> exists x' g', shuffle_loop i x g = Ok (x', g').
Proof.
  revert x g. induction i as [|i IH]; intros x g Hi; simpl; [eauto|].
  destruct (HG (Z.of_nat (S i) + 1)%Z g) as (j & g1 & -> & Hj); [lia|].
  destruct (swap_total x (S i) j) as [x1 Hx1]; [lia..|].
  rewrite Hx1. simpl.
  apply IH. apply swap_Permutation, Permutation_length in Hx1. lia.
Qed.

Lemma shuffle_total (HG : lawful G) x g : exists x' g', shuffle x g = Ok (x', g').
Proof. apply shuffle_loop_total; [done|]. destruct x; simpl; lia. Qed.
End ShuffleFacts.

Lemma lcg_lawful : lawful lcg.
Proof.
  intros n g Hn. eexists _, _. split; [reflexivity|].
  by apply Z.mod_pos_bound.
Qed.

(** ** The initial location list *)

Lemma length_bind_const {A B} (f : A -> list B) (l : list A) (k : nat) :
  (forall a, length (f a) = k) -> length (l ≫= f) = (length l * k)%nat.
Proof.
  intros Hf. induction l as [|a l IH]; csimpl; [done|].
  rewrite length_app, Hf, IH. lia.
Qed.

Lemma elem_of_all_locations (w h x y c : nat) :
  (x, y, c) ∈ Core.all_locations w h <-> (x < w /\ y < h /\ c < 3)%nat.
Proof.
  unfold Core.all_locations. rewrite list_elem_of_bind. split.
  - intros (y' & (x' & (c' & Hc%list_elem_of_singleton & ?%elem_of_seq)%list_elem_of_bind
                     & ?%elem_of_seq)%list_elem_of_bind & ?%elem_of_seq).
    simplify_eq. lia.
  - intros (Hx & Hy & Hc). exists y. split; [|apply elem_of_seq; lia].
    apply list_elem_of_bind. exists x. split; [|apply elem_of_seq; lia].
    apply list_elem_of_bind. exists c. split; [|apply elem_of_seq; lia].
    by apply list_elem_of_singleton.
Qed.

Lemma NoDup_all_locations (w h : nat) : NoDup (Core.all_locations w h).
Proof.
  unfold Core.all_locations.
  apply NoDup_bind; [| |apply NoDup_seq].
  - intros y1 y2 [[x y] c] _ _
      (x1 & (c1 & H1%list_elem_of_singleton & _)%list_elem_of_bind & _)%list_elem_of_bind
      (x2 & (c2 & H2%list_elem_of_singleton & _)%list_elem_of_bind & _)%list_elem_of_bind.
    congruence.
  - intros y _. apply NoDup_bind; [| |apply NoDup_seq].
    + intros x1 x2 [[x y'] c] _ _
        (c1 & H1%list_elem_of_singleton & _)%list_elem_of_bind
        (c2 & H2%list_elem_of_singleton & _)%list_elem_of_bind.
      congruence.
    + intros x _. apply NoDup_bind; [| |apply NoDup_seq].
      * intros c1 c2 l _ _ H1%list_elem_of_singleton H2%list_elem_of_singleton. congruence.
      * intros c _. apply NoDup_singleton.
Qed.

Lemma length_all_locations (w h : nat) :
  length (Core.all_locations w h) = (w * h * 3)%nat.
Proof.
  unfold Core.all_locations.
  rewrite (length_bind_const _ _ (w * 3)), length_seq; [lia|].
  intros y. rewrite (length_bind_const _ _ 3), length_seq; [lia|].
  intros x. by rewrite (length_bind_const _ _ 1), length_seq.
Qed.

(** ** The location generator *)

Section GeneratorFacts.
Context {G : PRNG}.

Lemma get_pixel_sequence_Permutation w h key l :
  Core._get_pixel_sequence w h key = Ok l -> l ≡ₚ Core.all_locations w h.
Proof.
  unfold Core._get_pixel_sequence.
  intros (kb & _ & ([pc g1] & _ & ([l' g2] & Hsh & [= <-])%bind_Ok)%bind_Ok)%bind_Ok.
  by eapply shuffle_Permutation.
Qed.

Lemma get_pixel_sequence_total (HG : lawful G) w h key kb :
  utf8_encode key = Some kb -> exists l, Core._get_pixel_sequence w h key = Ok l.
Proof.
  intros Hkey. unfold Core._get_pixel_sequence, str_encode_utf8. rewrite Hkey. simpl.
  destruct (shuffle_total HG (Core.all_pixel_coords w h) (Random (seed_fold kb)))
    as (pc & g1 & ->). simpl.
  destruct (shuffle_total HG (Core.all_locations w h) g1) as (l & g2 & ->). simpl.
  eauto.
Qed.

Lemma get_pixel_sequence_NoDup w h key l :
  Core._get_pixel_sequence w h key = Ok l -> NoDup l.
Proof.
  intros ->%get_pixel_sequence_Permutation. apply NoDup_all_locations.
Qed.

Lemma get_pixel_sequence_elem w h key l x y c :
  Core._get_pixel_sequence w h key = Ok l ->
  (x, y, c) ∈ l <-> (x < w /\ y < h /\ c < 3)%nat.
Proof.
  intros ->%get_pixel_sequence_Permutation. apply elem_of_all_locations.
Qed.

Lemma get_pixel_sequence_length w h key l :
  Core._get_pixel_sequence w h key = Ok l -> length l = (w * h * 3)%nat.
Proof.
  intros ->%get_pixel_sequence_Permutation. apply length_all_locations.
Qed.
End GeneratorFacts.

(** ** Bytes and bits *)

Lemma forall_below (P : Z -> bool) (n : nat) :
  forallb P (Z.of_nat <$> seq 0 n) = true ->
  forall z, (0 <= z < Z.of_nat n)%Z -> P z = true.
Proof.
  intros H z Hz. rewrite forallb_forall in H. apply H.
  apply list_elem_of_In, list_elem_of_fmap. exists (Z.to_nat z).
  split; [lia|]. apply elem_of_seq. lia.
Qed.

Lemma byte_of_bits (b : Z) :
  (0 <= b < 256)%Z ->
  (128 * Z.b2z (Z.testbit b 7) + 64 * Z.b2z (Z.testbit b 6) + 32 * Z.b2z (Z.testbit b 5)
   + 16 * Z.b2z (Z.testbit b 4) + 8 * Z.b2z (Z.testbit b 3) + 4 * Z.b2z (Z.testbit b 2)
   + 2 * Z.b2z (Z.testbit b 1) + Z.b2z (Z.testbit b 0))%Z = b.
Proof.
  intros Hb. apply Z.eqb_eq.
  apply (forall_below (fun b =>
    (128 * Z.b2z (Z.testbit b 7) + 64 * Z.b2z (Z.testbit b 6) + 32 * Z.b2z (Z.testbit b 5)
     + 16 * Z.b2z (Z.testbit b 4) + 8 * Z.b2z (Z.testbit b 3) + 4 * Z.b2z (Z.testbit b 2)
     + 2 * Z.b2z (Z.testbit b 1) + Z.b2z (Z.testbit b 0) =? b)%Z) 256); [|done].
  vm_compute. reflexivity.
Qed.

Lemma bits_to_bytes_format (b : Z) (rest : bitstring) :
  (0 <= b < 256)%Z -> bits_to_bytes (format_08b b ++ rest) = b :: bits_to_bytes rest.
Proof. intros Hb. simpl. f_equal. by apply byte_of_bits. Qed.

Lemma bits_to_bytes_bind (bs : list Z) :
  Forall (fun b => 0 <= b < 256)%Z bs -> bits_to_bytes (bs ≫= format_08b) = bs.
Proof.
  induction 1 as [|b bs Hb _ IH]; [done|].
  change ((b :: bs) ≫= format_08b) with (format_08b b ++ (bs ≫= format_08b)).
  rewrite bits_to_bytes_format by done. by rewrite IH.
Qed.

Lemma length_format_bind (bs : list Z) : length (bs ≫= format_08b) = (length bs * 8)%nat.
Proof. by apply length_bind_const. Qed.

Lemma b2z_range (b : bool) : (0 <= Z.b2z b <= 1)%Z.
Proof. destruct b; simpl; lia. Qed.

Lemma list_split8 {A} (l : list A) :
  (8 <= length l)%nat ->
  exists a7 a6 a5 a4 a3 a2 a1 a0 rest, l = a7 :: a6 :: a5 :: a4 :: a3 :: a2 :: a1 :: a0 :: rest.
Proof.
  intros H.
  destruct l as [|a7 [|a6 [|a5 [|a4 [|a3 [|a2 [|a1 [|a0 rest]]]]]]]]; simpl in H; try lia.
  eauto 10.
Qed.

Lemma assemble_bytes_ok (bits : bitstring) (q j : nat) (acc : list Z) :
  length bits = ((j + q) * 8)%nat ->
  Core.assemble_bytes ((fun k => k * 8)%nat <$> seq j q) bits acc
  = Ok (acc ++ bits_to_bytes (drop (j * 8) bits)).
Proof.
  revert j acc. induction q as [|q IH]; intros j acc HS.
  - simpl. rewrite drop_ge by lia. simpl. by rewrite app_nil_r.
  - cbn [seq fmap list_fmap Core.assemble_bytes].
    destruct (list_split8 (drop (j * 8) bits)) as (a7&a6&a5&a4&a3&a2&a1&a0&rest&Hd).
    { rewrite length_drop. lia. }
    rewrite Hd. cbn [firstn length Nat.ltb Nat.leb].
    assert (rest = drop (S j * 8) bits) as Hrest.
    { replace (S j * 8)%nat with (j * 8 + 8)%nat by lia.
      rewrite <- drop_drop, Hd. done. }
    unfold int_base2, bytearray_append. rewrite take_0. cbn [fold_left mbind result_bind].
    pose proof (b2z_range a7). pose proof (b2z_range a6). pose proof (b2z_range a5).
    pose proof (b2z_range a4). pose proof (b2z_range a3). pose proof (b2z_range a2).
    pose proof (b2z_range a1). pose proof (b2z_range a0).
    rewrite bool_decide_eq_true_2 by lia.
    cbn [try_except mbind result_bind].
    rewrite IH by lia. rewrite <- Hrest. cbn [bits_to_bytes].
    rewrite <- app_assoc. do 2 f_equal. simpl. f_equal. lia.
Qed.

Ltac Zify.zify_post_hook ::= Z.to_euclidean_division_equations.

Lemma range_step_8 (q : nat) : range_step (q * 8) 8 = (fun k => k * 8)%nat <$> seq 0 q.
Proof. unfold range_step. do 2 f_equal. lia. Qed.

Lemma binary_to_str_ok (bits : bitstring) :
  Core._binary_to_str bits
  = Ok (utf8_decode_replace (bits_to_bytes (take (length bits / 8 * 8) bits))).
Proof.
  unfold Core._binary_to_str.
  assert (length (take (length bits / 8 * 8) bits) = (length bits / 8 * 8)%nat) as Hlen.
  { rewrite length_take. lia. }
  destruct (Nat.eqb_spec (length bits mod 8) 0) as [Hmod|Hmod]; cbn [negb].
  - assert (length bits = (length bits / 8 * 8)%nat) as Hq by lia.
    rewrite take_ge by lia. rewrite Hq at 1. rewrite range_step_8.
    rewrite assemble_bytes_ok by lia. done.
  - rewrite Hlen, range_step_8.
    rewrite assemble_bytes_ok by lia. done.
Qed.

Lemma bits_to_bytes_app_short (bs : list Z) (extra : bitstring) :
  Forall (fun b => 0 <= b < 256)%Z bs -> (length extra < 8)%nat ->
  bits_to_bytes ((bs ≫= format_08b) ++ extra) = bs.
Proof.
  intros Hbs Hextra. induction Hbs as [|b bs Hb _ IH].
  - destruct extra as [|a7 [|a6 [|a5 [|a4 [|a3 [|a2 [|a1 [|a0 rest]]]]]]]];
      simpl in *; (done || lia).
  - change ((b :: bs) ≫= format_08b) with (format_08b b ++ (bs ≫= format_08b)).
    rewrite <- app_assoc, bits_to_bytes_format by done. by rewrite IH.
Qed.

(** ** UTF-8 *)

Lemma lor_80 (x : Z) : (0 <= x < 64)%Z -> Z.lor 0x80 x = (128 + x)%Z.
Proof.
  intros H. apply Z.eqb_eq.
  apply (forall_below (fun x => Z.lor 0x80 x =? 128 + x)%Z 64); [|done].
  vm_compute. reflexivity.
Qed.

Lemma lor_C0 (x : Z) : (0 <= x < 32)%Z -> Z.lor 0xC0 x = (192 + x)%Z.
Proof.
  intros H. apply Z.eqb_eq.
  apply (forall_below (fun x => Z.lor 0xC0 x =? 192 + x)%Z 32); [|done].
  vm_compute. reflexivity.
Qed.

Lemma lor_E0 (x : Z) : (0 <= x < 16)%Z -> Z.lor 0xE0 x = (224 + x)%Z.
Proof.
  intros H. apply Z.eqb_eq.
  apply (forall_below (fun x => Z.lor 0xE0 x =? 224 + x)%Z 16); [|done].
  vm_compute. reflexivity.
Qed.

Lemma lor_F0 (x : Z) : (0 <= x < 8)%Z -> Z.lor 0xF0 x = (240 + x)%Z.
Proof.
  intros H. apply Z.eqb_eq.
  apply (forall_below (fun x => Z.lor 0xF0 x =? 240 + x)%Z 8); [|done].
  vm_compute. reflexivity.
Qed.

Lemma land_3F (x : Z) : Z.land x 0x3F = (x mod 64)%Z.
Proof. apply (Z.land_ones x 6). lia. Qed.

Lemma shiftr_6 (x : Z) : Z.shiftr x 6 = (x / 64)%Z.
Proof. apply (Z.shiftr_div_pow2 x 6). lia. Qed.

Lemma shiftr_12 (x : Z) : Z.shiftr x 12 = (x / 4096)%Z.
Proof. apply (Z.shiftr_div_pow2 x 12). lia. Qed.

Lemma shiftr_18 (x : Z) : Z.shiftr x 18 = (x / 262144)%Z.
Proof. apply (Z.shiftr_div_pow2 x 18). lia. Qed.

Ltac zcases :=
  repeat match goal with
  | |- context [Z.ltb ?a ?b] => destruct (Z.ltb_spec a b); try lia
  | |- context [Z.leb ?a ?b] => destruct (Z.leb_spec a b); try lia
  | |- context [Z.eqb ?a ?b] => destruct (Z.eqb_spec a b); try lia
  end.

Lemma in_range_true (lo hi b : Z) : (lo <= b <= hi)%Z -> in_range lo hi b = true.
Proof. intros H. unfold in_range; zcases; done. Qed.

Lemma utf8_encode_char_shape (c : Z) (bs : list Z) :
  utf8_encode_char c = Some bs -> encoded_as c bs.
Proof.
  unfold utf8_encode_char.
  destruct (Z.ltb_spec c 0); [done|].
  destruct (Z.ltb_spec c 0x80); [intros [= <-]; constructor; lia|].
  destruct (Z.ltb_spec c 0x800).
  { intros [= <-]. rewrite shiftr_6, land_3F.
    rewrite lor_C0, lor_80 by lia. constructor; lia. }
  destruct (Z.ltb_spec c 0x10000).
  { destruct (Z.leb_spec 0xD800 c); destruct (Z.leb_spec c 0xDFFF);
      cbn [andb]; try done; intros [= <-];
      rewrite shiftr_12, shiftr_6, !land_3F;
      rewrite lor_E0, !lor_80 by lia.
    all: constructor; try lia; unfold second_ok3, in_range; zcases; done. }
  destruct (Z.ltb_spec c 0x110000); [|done].
  intros [= <-].
  rewrite shiftr_18, shiftr_12, shiftr_6, !land_3F.
  rewrite lor_F0, !lor_80 by lia.
  constructor; try lia; unfold second_ok4, in_range; zcases; done.
Qed.

Lemma utf8_decode_replace_cons (b0 : Z) (t0 : list Z) :
  utf8_decode_replace (b0 :: t0) =
  if (b0 <? 0x80)%Z then b0 :: utf8_decode_replace t0
  else if in_range 0xC2 0xDF b0 then
    match t0 with
    | [] => [REPLACEMENT]
    | b1 :: t1 =>
        if in_range 0x80 0xBF b1
        then (b0 * 64 + b1 - (0xC0 * 64 + 0x80))%Z :: utf8_decode_replace t1
        else REPLACEMENT :: utf8_decode_replace t0
    end
  else if in_range 0xE0 0xEF b0 then
    match t0 with
    | [] => [REPLACEMENT]
    | b1 :: t1 =>
        if second_ok3 b0 b1 then
          match t1 with
          | [] => [REPLACEMENT]
          | b2 :: t2 =>
              if in_range 0x80 0xBF b2
              then (b0 * 4096 + b1 * 64 + b2
                    - (0xE0 * 4096 + 0x80 * 64 + 0x80))%Z :: utf8_decode_replace t2
              else REPLACEMENT :: utf8_decode_replace t1
          end
        else REPLACEMENT :: utf8_decode_replace t0
    end
  else if in_range 0xF0 0xF4 b0 then
    match t0 with
    | [] => [REPLACEMENT]
    | b1 :: t1 =>
        if second_ok4 b0 b1 then
          match t1 with
          | [] => [REPLACEMENT]
          | b2 :: t2 =>
              if in_range 0x80 0xBF b2 then
                match t2 with
                | [] => [REPLACEMENT]
                | b3 :: t3 =>
                    if in_range 0x80 0xBF b3
                    then (b0 * 262144 + b1 * 4096 + b2 * 64 + b3
                          - (0xF0 * 262144 + 0x80 * 4096 + 0x80 * 64 + 0x80))%Z
                         :: utf8_decode_replace t3
                    else REPLACEMENT :: utf8_decode_replace t2
                end
              else REPLACEMENT :: utf8_decode_replace t1
          end
        else REPLACEMENT :: utf8_decode_replace t0
    end
  else REPLACEMENT :: utf8_decode_replace t0.
Proof. destruct t0 as [|b1 [|b2 [|b3 t3]]]; reflexivity. Qed.

Ltac decode_head :=
  rewrite utf8_decode_replace_cons;
  repeat first
    [ rewrite (in_range_true 0xC2 0xDF) by lia
    | rewrite (in_range_true 0xE0 0xEF) by lia
    | rewrite (in_range_true 0xF0 0xF4) by lia
    | rewrite (in_range_true 0x80 0xBF) by lia
    | match goal with H : second_ok3 _ _ = true |- _ => rewrite H end
    | match goal with H : second_ok4 _ _ = true |- _ => rewrite H end
    | match goal with
      | |- context [Z.ltb ?a 0x80] => destruct (Z.ltb_spec a 0x80); [lia|]
      | |- context [in_range ?lo ?hi ?b] =>
          replace (in_range lo hi b) with false by (unfold in_range; zcases; done)
      end ].

Lemma utf8_decode_encoded (c : Z) (bs rest : list Z) :
  encoded_as c bs -> utf8_decode_replace (bs ++ rest) = c :: utf8_decode_replace rest.
Proof.
  destruct 1; cbn [app].
  - rewrite utf8_decode_replace_cons. destruct (Z.ltb_spec c 0x80); [done|lia].
  - decode_head. f_equal. lia.
  - decode_head. f_equal. lia.
  - decode_head. f_equal. lia.
Qed.

Lemma utf8_decode_truncated (c : Z) (bs : list Z) (k : nat) :
  encoded_as c bs -> (0 < k < length bs)%nat ->
  utf8_decode_replace (take k bs) = [REPLACEMENT].
Proof.
  destruct 1; cbn [length]; intros Hk.
  - lia.
  - destruct k as [|[|k]]; try lia. cbn [firstn]. by decode_head.
  - destruct k as [|[|[|k]]]; try lia; cbn [firstn]; by decode_head.
  - destruct k as [|[|[|[|k]]]]; try lia; cbn [firstn]; by decode_head.
Qed.

Lemma encoded_bytes (c : Z) (bs : list Z) :
  encoded_as c bs -> Forall (fun b => 0 <= b < 245)%Z bs.
Proof. destruct 1; repeat constructor; lia. Qed.

Lemma utf8_encode_cons (c : Z) (s : pystr) (bs : list Z) :
  utf8_encode (c :: s) = Some bs <->
  exists cs rest, utf8_encode_char c = Some cs /\ utf8_encode s = Some rest /\ bs = cs ++ rest.
Proof.
  cbn [utf8_encode].
  destruct (utf8_encode_char c) as [cs|], (utf8_encode s) as [rest|]; split;
    try done; try (intros (? & ? & ? & ? & ?); done).
  - intros [= <-]. eauto.
  - intros (? & ? & [= <-] & [= <-] & ->). done.
Qed.

Lemma utf8_encode_bytes (s : pystr) (bs : list Z) :
  utf8_encode s = Some bs -> Forall (fun b => 0 <= b < 245)%Z bs.
Proof.
  revert bs. induction s as [|c s IH]; intros bs.
  - intros [= <-]. constructor.
  - intros (cs & rest & Hc & Hs & ->)%utf8_encode_cons.
    apply Forall_app. split; [|by apply IH].
    by eapply encoded_bytes, utf8_encode_char_shape.
Qed.

Lemma utf8_decode_encode_app (s : pystr) (bs tail : list Z) :
  utf8_encode s = Some bs ->
  utf8_decode_replace (bs ++ tail) = s ++ utf8_decode_replace tail.
Proof.
  revert bs. induction s as [|c s IH]; intros bs.
  - by intros [= <-].
  - intros (cs & rest & Hc & Hs & ->)%utf8_encode_cons.
    rewrite <- app_assoc.
    rewrite (utf8_decode_encoded c) by (by apply utf8_encode_char_shape).
    by rewrite (IH rest).
Qed.

Lemma utf8_decode_encode (s : pystr) (bs : list Z) :
  utf8_encode s = Some bs -> utf8_decode_replace bs = s.
Proof.
  intros H. rewrite <- (app_nil_r bs), (utf8_decode_encode_app s) by done.
  simpl. by rewrite app_nil_r.
Qed.

(** ** The delimiter cannot occur early *)

Lemma DELIMITER_replicate : Core.DELIMITER = replicate 15 true ++ [false].
Proof. reflexivity. Qed.

Lemma DELIMITER_lookup_true (i : nat) : (i < 15)%nat -> Core.DELIMITER !! i = Some true.
Proof.
  intros Hi. do 15 (destruct i as [|i]; [reflexivity|]). lia.
Qed.

Lemma lookup_format_08b (b : Z) (j : nat) :
  (j < 8)%nat -> format_08b b !! j = Some (Z.testbit b (Z.of_nat (7 - j))).
Proof. intros Hj. do 8 (destruct j as [|j]; [reflexivity|]). lia. Qed.

Lemma lookup_format_bind (bs : list Z) (q j : nat) (b : Z) :
  bs !! q = Some b -> (j < 8)%nat ->
  (bs ≫= format_08b) !! (q * 8 + j)%nat = Some (Z.testbit b (Z.of_nat (7 - j))).
Proof.
  revert q. induction bs as [|b' bs IH]; intros q Hq Hj; [done|].
  change ((b' :: bs) ≫= format_08b) with (format_08b b' ++ (bs ≫= format_08b)).
  destruct q as [|q].
  - injection Hq as ->. rewrite lookup_app_l by (simpl; lia). by apply lookup_format_08b.
  - rewrite lookup_app_r by (simpl; lia).
    replace (S q * 8 + j - length (format_08b b'))%nat with (q * 8 + j)%nat by (simpl; lia).
    by apply IH.
Qed.

Lemma endswith_true (s suffix : bitstring) :
  endswith s suffix = true <->
  (length suffix <= length s)%nat /\ drop (length s - length suffix) s = suffix.
Proof.
  unfold endswith. rewrite andb_true_iff, Nat.leb_le, bool_decide_eq_true. done.
Qed.

Lemma endswith_app (s suffix : bitstring) : endswith (s ++ suffix) suffix = true.
Proof.
  apply endswith_true. rewrite length_app. split; [lia|].
  rewrite drop_app_length'; [done|lia].
Qed.

Lemma endswith_lookup (s suffix : list bool) (i : nat) :
  endswith s suffix = true ->
  s !! (length s - length suffix + i)%nat = suffix !! i.
Proof.
  intros [_ Hd]%endswith_true. rewrite <- lookup_drop. by rewrite Hd.
Qed.

Lemma all_bits_set (b : Z) :
  (0 <= b < 256)%Z -> (forall j : nat, (j < 8)%nat -> Z.testbit b (Z.of_nat j) = true) -> b = 255%Z.
Proof.
  intros Hb Hbits. rewrite <- (byte_of_bits b Hb).
  pose proof (Hbits 7%nat ltac:(lia)) as H7. pose proof (Hbits 6%nat ltac:(lia)) as H6.
  pose proof (Hbits 5%nat ltac:(lia)) as H5. pose proof (Hbits 4%nat ltac:(lia)) as H4.
  pose proof (Hbits 3%nat ltac:(lia)) as H3. pose proof (Hbits 2%nat ltac:(lia)) as H2.
  pose proof (Hbits 1%nat ltac:(lia)) as H1. pose proof (Hbits 0%nat ltac:(lia)) as H0.
  change (Z.testbit b 7 = true) in H7. change (Z.testbit b 6 = true) in H6.
  change (Z.testbit b 5 = true) in H5. change (Z.testbit b 4 = true) in H4.
  change (Z.testbit b 3 = true) in H3. change (Z.testbit b 2 = true) in H2.
  change (Z.testbit b 1 = true) in H1. change (Z.testbit b 0 = true) in H0.
  rewrite H7, H6, H5, H4, H3, H2, H1, H0. reflexivity.
Qed.

Lemma no_early_delimiter (bs : list Z) (k : nat) :
  Forall (fun b => 0 <= b < 245)%Z bs ->
  (k < length bs * 8 + 16)%nat ->
  endswith (take k ((bs ≫= format_08b) ++ Core.DELIMITER)) Core.DELIMITER = false.
Proof.
  intros Hbs Hk. apply not_true_is_false. intros Hend.
  pose proof (length_format_bind bs) as Hlen.
  assert (length Core.DELIMITER = 16%nat) as HlenD by reflexivity.
  assert (length (take k ((bs ≫= format_08b) ++ Core.DELIMITER)) = k) as Hlk.
  { rewrite length_take, length_app. lia. }
  assert (16 <= k)%nat as Hk16.
  { apply endswith_true in Hend as [Hle _]. lia. }
  assert (forall i, (i < 16)%nat ->
            ((bs ≫= format_08b) ++ Core.DELIMITER) !! (k - 16 + i)%nat = Core.DELIMITER !! i)
    as Hwin.
  { intros i Hi. rewrite <- (endswith_lookup _ _ i Hend), Hlk, HlenD.
    rewrite lookup_take_lt by lia. done. }
  destruct (decide (length bs * 8 < k)%nat) as [Hlate|Hin].
  - specialize (Hwin 15%nat ltac:(lia)).
    rewrite lookup_app_r in Hwin by lia.
    rewrite DELIMITER_lookup_true in Hwin by lia. done.
  - set (q := ((k - 16 + 7) / 8)%nat).
    assert (q * 8 + 8 <= k)%nat as Hq1 by lia.
    assert (k - 16 <= q * 8)%nat as Hq2 by lia.
    destruct (lookup_lt_is_Some_2 bs q) as [b Hb]; [lia|].
    pose proof (proj1 (Forall_lookup _ _) Hbs q b Hb) as Hrange. simpl in Hrange.
    assert (b = 255%Z); [|lia].
    apply all_bits_set; [lia|]. intros j Hj.
    specialize (Hwin (q * 8 + (7 - j) - (k - 16))%nat ltac:(lia)).
    replace (k - 16 + (q * 8 + (7 - j) - (k - 16)))%nat with (q * 8 + (7 - j))%nat in Hwin by lia.
    rewrite lookup_app_l in Hwin by lia.
    rewrite (lookup_format_bind bs q (7 - j) b) in Hwin by (done || lia).
    rewrite DELIMITER_lookup_true in Hwin by lia.
    replace (7 - (7 - j))%nat with j in Hwin by lia. congruence.
Qed.

(** ** Least-significant bits *)

Lemma lsb_testbit (v : Z) : Core.lsb v = Z.testbit v 0.
Proof.
  unfold Core.lsb.
  replace (Z.land v 1) with (v mod 2)%Z by (symmetry; apply (Z.land_ones v 1); lia).
  rewrite <- Z.bit0_mod.
  by destruct (Z.testbit v 0).
Qed.

Lemma testbit_b2z_succ (b : bool) (n : Z) :
  (0 <= n)%Z -> Z.testbit (Z.b2z b) (Z.succ n) = false.
Proof.
  intros Hn. replace (Z.b2z b) with (2 * 0 + Z.b2z b)%Z by lia.
  rewrite Z.testbit_succ_r by done. apply Z.bits_0.
Qed.

Lemma lsb_set_lsb (v : Z) (bit : bool) : Core.lsb (Core.set_lsb v (Z.b2z bit)) = bit.
Proof.
  rewrite lsb_testbit. unfold Core.set_lsb.
  rewrite Z.lor_spec, Z.land_spec, Z.lnot_spec, Z.b2z_bit0 by lia.
  change (Z.testbit 1 0) with true. by rewrite andb_false_r.
Qed.

Lemma shiftr_set_lsb (v : Z) (bit : bool) :
  Z.shiftr (Core.set_lsb v (Z.b2z bit)) 1 = Z.shiftr v 1.
Proof.
  apply Z.bits_inj'. intros n Hn. rewrite !Z.shiftr_spec by done.
  unfold Core.set_lsb.
  rewrite Z.lor_spec, Z.land_spec, Z.lnot_spec by lia.
  replace (n + 1)%Z with (Z.succ n) by lia.
  rewrite testbit_b2z_succ by done.
  change 1%Z with (Z.b2z true) at 1. rewrite testbit_b2z_succ by done.
  by rewrite andb_true_r, orb_false_r.
Qed.

(** ** One embedding step *)

Lemma channel_write_bit_same (p : pixel) (ch : nat) (bit : Z) :
  channel (write_bit p ch bit) ch = Core.set_lsb (channel p ch) bit.
Proof.
  destruct p as [[r g] b]. unfold channel, write_bit.
  destruct (ch =? 0)%nat; [done|]. destruct (ch =? 1)%nat; done.
Qed.

Lemma channel_write_bit_other (p : pixel) (ch ch' : nat) (bit : Z) :
  (ch < 3)%nat -> (ch' < 3)%nat -> ch <> ch' ->
  channel (write_bit p ch bit) ch' = channel p ch'.
Proof.
  intros Hc Hc' Hne. destruct p as [[r g] b].
  destruct ch as [|[|[|ch]]]; try lia;
    destruct ch' as [|[|[|ch']]]; try lia; done.
Qed.

Lemma channel_at_step_same (px : gmap (nat * nat) pixel) (x y ch : nat) (p : pixel) (bit : Z) :
  px !! (x, y) = Some p ->
  channel_at (<[(x, y) := write_bit p ch bit]> px) (x, y, ch)
  = Some (Core.set_lsb (channel p ch) bit).
Proof.
  intros Hp. unfold channel_at. rewrite lookup_insert_eq. simpl.
  by rewrite channel_write_bit_same.
Qed.

Lemma channel_at_step_other (px : gmap (nat * nat) pixel) (x y ch : nat) (p : pixel) (bit : Z)
    (loc : location) :
  px !! (x, y) = Some p -> (ch < 3)%nat -> (loc.2 < 3)%nat -> loc <> (x, y, ch) ->
  channel_at (<[(x, y) := write_bit p ch bit]> px) loc = channel_at px loc.
Proof.
  intros Hp Hc Hc' Hne. destruct loc as [[x' y'] ch']. simpl in Hc'. unfold channel_at.
  destruct (decide ((x, y) = (x', y'))) as [[= <- <-]|Hxy].
  - rewrite lookup_insert_eq, Hp. simpl.
    rewrite channel_write_bit_other; [done..|congruence].
  - by rewrite lookup_insert_ne.
Qed.

Section CodecFacts.
Context {G : PRNG}.

Lemma embed_loop_cons (x y ch : nat) (rest : list location) (wm : bitstring)
    (px : gmap (nat * nat) pixel) (c : nat) (r : gmap (nat * nat) pixel * nat) :
  (c < length wm)%nat ->
  Core.embed_loop ((x, y, ch) :: rest) wm px c = Ok r <->
  exists p bit, px !! (x, y) = Some p /\ wm !! c = Some bit /\
    Core.embed_loop rest wm (<[(x, y) := write_bit p ch (Z.b2z bit)]> px) (S c) = Ok r.
Proof.
  intros Hc. cbn [Core.embed_loop].
  rewrite (proj2 (Nat.ltb_lt _ _) Hc).
  unfold pixels_get, pixels_set.
  destruct (px !! (x, y)) as [[[r0 g0] b0]|] eqn:Hp; simpl;
    [|split; [done|intros (? & ? & ? & _); done]].
  destruct (wm !! c) as [bit|] eqn:Hbit; simpl;
    [|split; [done|intros (? & ? & _ & ? & _); done]].
  split.
  - intros H. exists (r0, g0, b0), bit. split_and!; [done..|].
    unfold write_bit. destruct (ch =? 0)%nat; [done|]. destruct (ch =? 1)%nat; done.
  - intros (p & bit' & [= <-] & [= <-] & H).
    unfold write_bit in H. destruct (ch =? 0)%nat; [done|]. destruct (ch =? 1)%nat; done.
Qed.
End CodecFacts.

(** ** The embedding loop *)

Lemma embed_loop_done (locs : list location) (wm : bitstring)
    (px : gmap (nat * nat) pixel) (c : nat) :
  (length wm <= c)%nat -> Core.embed_loop locs wm px c = Ok (px, c).
Proof.
  intros Hc. destruct locs as [|[[x y] ch] rest]; [done|].
  cbn [Core.embed_loop]. by rewrite (proj2 (Nat.ltb_ge _ _) Hc).
Qed.

Lemma embed_loop_total (locs : list location) (wm : bitstring) :
  forall (px : gmap (nat * nat) pixel) (c : nat),
    (forall x y ch, (x, y, ch) ∈ locs -> is_Some (px !! (x, y))) ->
    exists r, Core.embed_loop locs wm px c = Ok r.
Proof.
  induction locs as [|[[x y] ch] rest IH]; intros px c Hdom; [by eexists|].
  destruct (decide (c < length wm)%nat) as [Hc|Hc].
  - destruct (Hdom x y ch) as [p Hp]; [by left|].
    destruct (lookup_lt_is_Some_2 wm c Hc) as [bit Hbit].
    destruct (IH (<[(x, y) := write_bit p ch (Z.b2z bit)]> px) (S c)) as [r Hr].
    { intros x' y' ch' Hin. apply lookup_insert_is_Some'. right.
      apply (Hdom x' y' ch'). by right. }
    exists r. apply embed_loop_cons; [done|]. eauto.
  - rewrite embed_loop_done by lia. by eexists.
Qed.

Lemma embed_loop_spec (locs : list location) (wm : bitstring) :
  forall (px px' : gmap (nat * nat) pixel) (c c' : nat),
    NoDup locs -> Forall (fun loc => loc.2 < 3)%nat locs -> (c <= length wm)%nat ->
    Core.embed_loop locs wm px c = Ok (px', c') ->
    let n := Nat.min (length locs) (length wm - c) in
    c' = (c + n)%nat
    /\ (forall i loc, (i < n)%nat -> locs !! i = Some loc ->
          exists old bit,
            channel_at px loc = Some old /\ wm !! (c + i)%nat = Some bit
            /\ channel_at px' loc = Some (Core.set_lsb old (Z.b2z bit)))
    /\ (forall loc : location, (loc.2 < 3)%nat -> loc ∉ take n locs ->
          channel_at px' loc = channel_at px loc).
Proof.
  induction locs as [|[[x y] ch] rest IH]; intros px px' c c' Hnd Hch Hc Hrun n.
  - injection Hrun as <- <-. subst n. simpl. split_and!; [lia|intros; lia|done].
  - destruct (decide (c < length wm)%nat) as [Hlt|Hge].
    2:{ rewrite embed_loop_done in Hrun by lia. injection Hrun as <- <-.
        assert (n = 0)%nat as -> by (subst n; lia).
        split_and!; [lia|intros; lia|done]. }
    apply embed_loop_cons in Hrun as (p & bit & Hp & Hbit & Hrun); [|done].
    apply NoDup_cons in Hnd as [Hnotin Hnd].
    apply Forall_cons in Hch as [Hch0 Hch]. simpl in Hch0.
    assert (S c <= length wm)%nat as Hsc by lia.
    destruct (IH _ _ _ _ Hnd Hch Hsc Hrun) as (Hc' & Hset & Hframe).
    set (n' := Nat.min (length rest) (length wm - S c)) in *.
    assert (n = S n') as -> by (subst n n'; cbn [length]; lia).
    split_and!.
    + lia.
    + intros i loc Hi Hloc. destruct i as [|i].
      * injection Hloc as <-. exists (channel p ch), bit. split_and!.
        -- unfold channel_at. by rewrite Hp.
        -- by rewrite Nat.add_0_r.
        -- rewrite Hframe; [by apply channel_at_step_same|done|].
           intros Hin%elem_of_take. destruct Hin as (j & Hj & _).
           apply Hnotin. by eapply list_elem_of_lookup_2.
      * simpl in Hloc. destruct (Hset i loc ltac:(lia) Hloc) as (old & bit' & Hold & Hbit' & Hnew).
        exists old, bit'. split_and!; [|by rewrite <- Hbit'; f_equal; lia|done].
        rewrite <- Hold. symmetry. apply channel_at_step_other; [done..| |].
        -- by apply (proj1 (Forall_lookup _ _) Hch i loc).
        -- intros ->. apply Hnotin. by eapply list_elem_of_lookup_2.
    + intros loc Hloc Hnotin'. simpl in Hnotin'.
      apply not_elem_of_cons in Hnotin' as [Hne Hnotin'].
      rewrite Hframe by done. by apply channel_at_step_other.
Qed.

(** ** The extraction loop *)

Lemma extract_loop_cons (x y ch : nat) (rest : list location)
    (px : gmap (nat * nat) pixel) (max_bits : Z) (acc : bitstring) (c : nat) (bit : bool) :
  (Z.of_nat c < max_bits)%Z ->
  lsb_at px (x, y, ch) = Some bit ->
  Core.extract_loop ((x, y, ch) :: rest) px max_bits acc c =
  if endswith (acc ++ [bit]) Core.DELIMITER then
    text ← Core._binary_to_str
             (take (length (acc ++ [bit]) - length Core.DELIMITER) (acc ++ [bit]));
    Ok (Some text)
  else Core.extract_loop rest px max_bits (acc ++ [bit]) (S c).
Proof.
  intros Hc Hbit. cbn [Core.extract_loop].
  rewrite (proj2 (Z.ltb_lt _ _) Hc).
  unfold lsb_at, channel_at in Hbit. unfold pixels_get.
  destruct (px !! (x, y)) as [[[r g] b]|]; [|done].
  simpl in Hbit. injection Hbit as <-. simpl.
  unfold channel. destruct (ch =? 0)%nat; [done|]. destruct (ch =? 1)%nat; done.
Qed.

Lemma extract_loop_stop (locs : list location) (px : gmap (nat * nat) pixel)
    (max_bits : Z) (acc : bitstring) (c : nat) :
  (max_bits <= Z.of_nat c)%Z -> Core.extract_loop locs px max_bits acc c = Ok None.
Proof.
  intros Hc. destruct locs as [|[[x y] ch] rest]; [done|].
  cbn [Core.extract_loop]. by rewrite (proj2 (Z.ltb_ge _ _) Hc).
Qed.

Lemma extract_loop_spec (px : gmap (nat * nat) pixel) (max_bits : Z)
    (locs : list location) (stream : bitstring) :
  Forall2 (fun loc b => lsb_at px loc = Some b) locs stream ->
  forall (acc : bitstring) (c : nat),
    let n := Nat.min (length stream) (Z.to_nat (max_bits - Z.of_nat c)) in
    (Core.extract_loop locs px max_bits acc c = Ok None
     /\ forall k, (1 <= k <= n)%nat -> endswith (acc ++ take k stream) Core.DELIMITER = false)
    \/ (exists k, (1 <= k <= n)%nat
        /\ endswith (acc ++ take k stream) Core.DELIMITER = true
        /\ (forall k', (1 <= k' < k)%nat ->
              endswith (acc ++ take k' stream) Core.DELIMITER = false)
        /\ Core.extract_loop locs px max_bits acc c =
           (text ← Core._binary_to_str
                     (take (length acc + k - length Core.DELIMITER) (acc ++ take k stream));
            Ok (Some text))).
Proof.
  induction 1 as [|[[x y] ch] bit rest stream' Hbit Hrest IH]; intros acc c n.
  - left. split; [done|]. subst n. simpl. intros; lia.
  - destruct (decide (Z.of_nat c < max_bits)%Z) as [Hc|Hc].
    2:{ left. rewrite extract_loop_stop by lia. split; [done|].
        subst n. intros; lia. }
    rewrite (extract_loop_cons _ _ _ _ _ _ _ _ bit) by done.
    assert (forall k, acc ++ take (S k) (bit :: stream') = (acc ++ [bit]) ++ take k stream')
      as Hsplit.
    { intros k. by rewrite <- app_assoc. }
    destruct (endswith (acc ++ [bit]) Core.DELIMITER) eqn:Hend.
    + right. exists 1%nat. split; [subst n; cbn [length]; lia|]. split_and!.
      * by rewrite Hsplit, take_0, app_nil_r.
      * intros; lia.
      * rewrite Hsplit, take_0, app_nil_r, length_app. simpl.
        by replace (length acc + 1)%nat with (length acc + 1 - 0)%nat by lia.
    + specialize (IH (acc ++ [bit]) (S c)).
      set (n' := Nat.min (length stream') (Z.to_nat (max_bits - Z.of_nat (S c)))) in *.
      assert (n = S n') as -> by (subst n n'; cbn [length]; lia).
      destruct IH as [[Hnone Hno]|(k & Hk & Hyes & Hfirst & Hrun)].
      * left. split; [done|]. intros k Hk. destruct k as [|k]; [lia|].
        rewrite Hsplit. destruct k as [|k]; [by rewrite take_0, app_nil_r|].
        apply Hno. lia.
      * right. exists (S k). split; [lia|]. split_and!.
        -- by rewrite Hsplit.
        -- intros k' Hk'. destruct k' as [|k']; [lia|].
           rewrite Hsplit. destruct k' as [|k']; [by rewrite take_0, app_nil_r|].
           apply Hfirst. lia.
        -- rewrite Hrun, Hsplit, length_app. simpl.
           by replace (length acc + 1 + k)%nat with (length acc + S k)%nat by lia.
Qed.

(** ** Decoding what was encoded *)

Lemma binary_to_str_str_to_binary (s : pystr) (bs : list Z) :
  utf8_encode s = Some bs -> Core._binary_to_str (bs ≫= format_08b) = Ok s.
Proof.
  intros Hs. rewrite binary_to_str_ok, length_format_bind.
  rewrite take_ge by (rewrite length_format_bind; lia).
  rewrite bits_to_bytes_bind.
  - by rewrite (utf8_decode_encode s).
  - eapply Forall_impl; [by apply (utf8_encode_bytes s)|]. simpl. lia.
Qed.

(** ** The two entry points *)

Ltac ltb_true :=
  match goal with
  | |- context [Nat.ltb ?a ?b] => destruct (Nat.ltb_spec a b); [|lia]
  end.
Ltac ltb_false :=
  match goal with
  | |- context [Nat.ltb ?a ?b] => destruct (Nat.ltb_spec a b); [lia|]
  end.

Section EntryPoints.
Context {G : PRNG}.
Implicit Types (img : image) (payload key : pystr) (locs : list location).

Lemma wf_image_readable img key locs x y ch :
  wf_image img ->
  Core._get_pixel_sequence (size img).1 (size img).2 key = Ok locs ->
  (x, y, ch) ∈ locs -> is_Some (pixels img !! (x, y)).
Proof.
  intros Hwf Hlocs Hin.
  apply (get_pixel_sequence_elem _ _ _ _ _ _ _ Hlocs) in Hin as (Hx & Hy & _).
  by apply Hwf.
Qed.

Lemma add_watermark_image_too_big img payload key pb :
  utf8_encode payload = Some pb ->
  ((size img).1 * (size img).2 * 3 < length pb * 8 + 16)%nat ->
  Core.add_watermark_image img payload key = Ok None.
Proof.
  intros Hpb Hbig. unfold Core.add_watermark_image, Core._str_to_binary, str_encode_utf8.
  destruct (size img) as [w h]. rewrite Hpb. simpl in *.
  rewrite length_app, length_format_bind. change (length Core.DELIMITER) with 16%nat.
  by ltb_true.
Qed.

Lemma add_watermark_image_fits img payload key pb locs :
  utf8_encode payload = Some pb ->
  (length pb * 8 + 16 <= (size img).1 * (size img).2 * 3)%nat ->
  Core._get_pixel_sequence (size img).1 (size img).2 key = Ok locs ->
  forall r, Core.embed_loop locs ((pb ≫= format_08b) ++ Core.DELIMITER) (pixels img) 0 = Ok r ->
  Core.add_watermark_image img payload key
  = Ok (Some {| size := size img; pixels := r.1 |}).
Proof.
  intros Hpb Hfit Hlocs [px' c'] Hrun.
  assert (NoDup locs) as Hnd by (by eapply get_pixel_sequence_NoDup).
  assert (Forall (fun loc => loc.2 < 3)%nat locs) as Hch.
  { apply Forall_forall. intros [[x y] ch] Hin.
    by apply (get_pixel_sequence_elem _ _ _ _ _ _ _ Hlocs) in Hin as (_ & _ & ?). }
  pose proof (get_pixel_sequence_length _ _ _ _ Hlocs) as Hlen.
  assert (length ((pb ≫= format_08b) ++ Core.DELIMITER) = (length pb * 8 + 16)%nat) as Hwm.
  { by rewrite length_app, length_format_bind. }
  destruct (embed_loop_spec _ _ _ _ _ _ Hnd Hch (Nat.le_0_l _) Hrun) as (Hc' & _).
  unfold Core.add_watermark_image, Core._str_to_binary, str_encode_utf8.
  destruct (size img) as [w h] eqn:Hsize. rewrite Hpb. simpl in *.
  rewrite Hwm. ltb_false.
  rewrite Hlocs. simpl. ltb_false.
  rewrite Hrun. simpl. by ltb_false.
Qed.

Lemma add_watermark_image_inv img payload key img' :
  Core.add_watermark_image img payload key = Ok (Some img') ->
  exists pb locs,
    utf8_encode payload = Some pb
    /\ Core._get_pixel_sequence (size img).1 (size img).2 key = Ok locs
    /\ (length pb * 8 + 16 <= (size img).1 * (size img).2 * 3)%nat
    /\ Core.embed_loop locs ((pb ≫= format_08b) ++ Core.DELIMITER) (pixels img) 0
       = Ok (pixels img', length pb * 8 + 16)%nat
    /\ size img' = size img.
Proof.
  unfold Core.add_watermark_image, Core._str_to_binary, str_encode_utf8.
  destruct (size img) as [w h] eqn:Hsize.
  destruct (utf8_encode payload) as [pb|]; [|done]. simpl.
  rewrite length_app, length_format_bind. change (length Core.DELIMITER) with 16%nat.
  destruct (Nat.ltb_spec (w * h * 3) (length pb * 8 + 16)); [done|].
  destruct (Core._get_pixel_sequence w h key) as [locs| |] eqn:Hlocs; [|done..]. simpl.
  destruct (Nat.ltb_spec (length locs) (length pb * 8 + 16)); [done|].
  destruct (Core.embed_loop _ _ _ _) as [[px' c']| |] eqn:Hrun; [|done..]. simpl.
  destruct (Nat.ltb_spec c' (length pb * 8 + 16)); [done|].
  intros [= <-]. exists pb, locs. split_and!; [done..|lia| |done]. simpl.
  assert (NoDup locs) as Hnd by (by eapply get_pixel_sequence_NoDup).
  assert (Forall (fun loc => loc.2 < 3)%nat locs) as Hch.
  { apply Forall_forall. intros [[x y] ch] Hin.
    by apply (get_pixel_sequence_elem _ _ _ _ _ _ _ Hlocs) in Hin as (_ & _ & ?). }
  destruct (embed_loop_spec _ _ _ _ _ _ Hnd Hch (Nat.le_0_l _) Hrun) as (Hc' & _).
  rewrite Hrun. do 2 f_equal.
  rewrite length_app, length_format_bind in Hc'. change (length Core.DELIMITER) with 16%nat in Hc'. lia.
Qed.

Lemma detect_watermark_image_unfold img key m locs :
  Core._get_pixel_sequence (size img).1 (size img).2 key = Ok locs ->
  Core.detect_watermark_image img key m
  = try_except_Exception
      (Core.extract_loop locs (pixels img) (m * 8 * 2 + 16)%Z [] 0) (Ok None).
Proof.
  intros Hlocs. unfold Core.detect_watermark_image.
  destruct (size img) as [w h]. simpl in Hlocs. by rewrite Hlocs.
Qed.
End EntryPoints.

(** ** What the detector reads after an embedding *)

Lemma channel_at_is_Some (px : gmap (nat * nat) pixel) (x y ch : nat) :
  is_Some (px !! (x, y)) -> is_Some (channel_at px (x, y, ch)).
Proof. intros [p Hp]. unfold channel_at. rewrite Hp. by eexists. Qed.

Lemma lsb_stream_total (px : gmap (nat * nat) pixel) (locs : list location) :
  (forall x y ch, (x, y, ch) ∈ locs -> is_Some (px !! (x, y))) ->
  exists stream, lsb_stream px locs = Some stream.
Proof.
  intros Hdom. apply (mapM_is_Some_2 (lsb_at px)).
  apply Forall_forall. intros [[x y] ch] Hin. simpl. unfold lsb_at.
  destruct (channel_at_is_Some px x y ch (Hdom _ _ _ Hin)) as [v ->]. by eexists.
Qed.

Lemma lsb_stream_Forall2 (px : gmap (nat * nat) pixel) (locs : list location)
    (stream : bitstring) :
  lsb_stream px locs = Some stream ->
  Forall2 (fun loc b => lsb_at px loc = Some b) locs stream.
Proof. apply mapM_Some_1. Qed.

Lemma embedded_stream (locs : list location) (wm : bitstring)
    (px px' : gmap (nat * nat) pixel) (c' : nat) :
  NoDup locs -> Forall (fun loc => loc.2 < 3)%nat locs ->
  (length wm <= length locs)%nat ->
  (forall x y ch, (x, y, ch) ∈ locs -> is_Some (px !! (x, y))) ->
  Core.embed_loop locs wm px 0 = Ok (px', c') ->
  exists stream, lsb_stream px' locs = Some stream /\ take (length wm) stream = wm.
Proof.
  intros Hnd Hch Hlen Hdom Hrun.
  destruct (embed_loop_spec _ _ _ _ _ _ Hnd Hch (Nat.le_0_l _) Hrun) as (_ & Hset & Hframe).
  replace (Nat.min (length locs) (length wm - 0)) with (length wm) in * by lia.
  assert (forall i loc, locs !! i = Some loc -> (i < length wm)%nat ->
            lsb_at px' loc = wm !! i) as Hwritten.
  { intros i loc Hloc Hi. destruct (Hset i loc Hi Hloc) as (old & bit & _ & Hbit & Hnew).
    unfold lsb_at. rewrite Hnew. simpl. by rewrite lsb_set_lsb. }
  assert (Forall (is_Some ∘ lsb_at px') locs) as Hsome.
  { apply Forall_lookup. intros i [[x y] ch] Hloc. simpl.
    destruct (decide (i < length wm)%nat) as [Hi|Hi].
    - rewrite (Hwritten i _ Hloc Hi). by apply lookup_lt_is_Some_2.
    - unfold lsb_at. rewrite Hframe.
      + destruct (channel_at_is_Some px x y ch) as [v ->]; [|by eexists].
        eapply Hdom, list_elem_of_lookup_2, Hloc.
      + by apply (proj1 (Forall_lookup _ _) Hch i _ Hloc).
      + intros (j & Hj & Hlt)%elem_of_take.
        pose proof (NoDup_lookup _ _ _ _ Hnd Hloc Hj). lia. }
  apply (mapM_is_Some_2 (lsb_at px')) in Hsome as [stream Hstream].
  exists stream. split; [done|].
  apply lsb_stream_Forall2 in Hstream.
  apply list_eq. intros i.
  destruct (decide (i < length wm)%nat) as [Hi|Hi].
  - rewrite lookup_take_lt by done.
    destruct (lookup_lt_is_Some_2 locs i) as [loc Hloc]; [lia|].
    destruct (Forall2_lookup_l _ _ _ _ _ Hstream Hloc) as (b & Hb & Hread).
    rewrite Hb, <- Hread. by apply Hwritten.
  - rewrite lookup_take_ge by lia. symmetry. apply lookup_ge_None. lia.
Qed.

Section RoundTrip.
Context {G : PRNG}.

(** Embedding along one location sequence and extracting along the same
    one returns the payload; the two keys only matter through it. *)
Lemma round_trip_along img payload (key1 key2 : pystr) pb locs (m : Z) :
  wf_image img ->
  utf8_encode payload = Some pb ->
  Core._get_pixel_sequence (size img).1 (size img).2 key1 = Ok locs ->
  Core._get_pixel_sequence (size img).1 (size img).2 key2 = Ok locs ->
  (length pb * 8 + 16 <= (size img).1 * (size img).2 * 3)%nat ->
  (Z.of_nat (length pb * 8) + 16 <= m * 8 * 2 + 16)%Z ->
  exists img',
    Core.add_watermark_image img payload key1 = Ok (Some img')
    /\ Core.detect_watermark_image img' key2 m = Ok (Some payload).
Proof.
  intros Hwf Hpb Hlocs1 Hlocs2 Hfit Hbound.
  set (bits := pb ≫= format_08b). set (wm := bits ++ Core.DELIMITER).
  assert (length bits = (length pb * 8)%nat) as Hbits by apply length_format_bind.
  assert (length wm = (length pb * 8 + 16)%nat) as Hwm.
  { subst wm. by rewrite length_app, Hbits. }
  assert (NoDup locs) as Hnd by (by eapply get_pixel_sequence_NoDup).
  assert (Forall (fun loc => loc.2 < 3)%nat locs) as Hch.
  { apply Forall_forall. intros [[x y] ch] Hin.
    by apply (get_pixel_sequence_elem _ _ _ _ _ _ _ Hlocs1) in Hin as (_ & _ & ?). }
  pose proof (get_pixel_sequence_length _ _ _ _ Hlocs1) as Hlen.
  assert (forall x y ch, (x, y, ch) ∈ locs -> is_Some (pixels img !! (x, y))) as Hdom.
  { intros x y ch. by eapply wf_image_readable. }
  destruct (embed_loop_total locs wm (pixels img) 0 Hdom) as [[px' c'] Hrun].
  exists {| size := size img; pixels := px' |}. split.
  { by rewrite (add_watermark_image_fits img payload key1 pb locs Hpb Hfit Hlocs1 _ Hrun). }
  destruct (embedded_stream locs wm _ _ _ Hnd Hch ltac:(lia) Hdom Hrun)
    as (stream & Hstream & Htake).
  pose proof (Forall2_length _ _ _ (lsb_stream_Forall2 _ _ _ Hstream)) as Hslen.
  rewrite (detect_watermark_image_unfold _ key2 m locs) by done. simpl.
  assert (forall k, (k <= length wm)%nat -> take k stream = take k wm) as Hprefix.
  { intros k Hk. rewrite <- Htake, take_take. f_equal. lia. }
  destruct (extract_loop_spec px' (m * 8 * 2 + 16)%Z locs stream
              (lsb_stream_Forall2 _ _ _ Hstream) [] 0)
    as [[_ Hno]|(k & Hk & Hyes & Hfirst & ->)]; simpl in *.
  - specialize (Hno (length wm) ltac:(lia)).
    rewrite Htake in Hno. subst wm. by rewrite endswith_app in Hno.
  - assert (k = length wm) as ->.
    { destruct (decide (k < length wm)%nat) as [Hlt|Hge].
      - rewrite Hprefix in Hyes by lia. subst wm bits.
        rewrite no_early_delimiter in Hyes; [done| |lia].
        eapply Forall_impl; [by apply (utf8_encode_bytes payload)|]. simpl. lia.
      - destruct (decide (k = length wm)) as [|Hne]; [done|].
        specialize (Hfirst (length wm) ltac:(lia)).
        rewrite Htake in Hfirst. subst wm. by rewrite endswith_app in Hfirst. }
    rewrite Htake.
    replace (length wm - 16)%nat with (length bits) by lia.
    subst wm. rewrite take_app_length. subst bits.
    by rewrite (binary_to_str_str_to_binary payload).
Qed.
End RoundTrip.

(** ** Sample inputs are well formed *)

Lemma sample_image_wf : wf_image sample_image.
Proof.
  intros x y Hx Hy. simpl in Hx, Hy.
  destruct x as [|[|[|[|x]]]]; try lia;
    destruct y as [|[|y]]; try lia; vm_compute; eauto.
Qed.

(** The scenario of section 8 of the specification, run with the generator
    of the Python runtime: a 10 by 10 image, key "k1", payload "hi"; decoding
    with "k1" returns "hi" and decoding with "k2" finds nothing. *)
Example concrete_scenario :
  exists img',
    Core.add_watermark_image (G := mt19937 64) (solid_image 10 10 (200, 17, 64)%Z)
      [104; 105]%Z [107; 49]%Z = Ok (Some img')
    /\ Core.detect_watermark_image (G := mt19937 64) img' [107; 49]%Z 10 = Ok (Some [104; 105]%Z)
    /\ Core.detect_watermark_image (G := mt19937 64) img' [107; 50]%Z 10 = Ok None.
Proof.
  eexists. split; [vm_compute; reflexivity|]. split; vm_compute; reflexivity.
Qed.

(** ** What an embedding does to the image *)

Lemma add_watermark_image_succeeds {G : PRNG} (img : image) (payload key : pystr)
    (pb kb : list Z) :
  lawful G -> wf_image img ->
  utf8_encode payload = Some pb -> utf8_encode key = Some kb ->
  (length pb * 8 + 16 <= (size img).1 * (size img).2 * 3)%nat ->
  exists img', Core.add_watermark_image img payload key = Ok (Some img').
Proof.
  intros HG Hwf Hpb Hkey Hfit.
  destruct (get_pixel_sequence_total HG (size img).1 (size img).2 key kb Hkey)
    as [locs Hlocs].
  destruct (embed_loop_total locs ((pb ≫= format_08b) ++ Core.DELIMITER) (pixels img) 0)
    as [r Hrun].
  { intros x y ch. by eapply wf_image_readable. }
  eexists. by eapply add_watermark_image_fits.
Qed.

Lemma set_lsb_value (v : Z) (bit : bool) :
  Core.set_lsb v (Z.b2z bit) = (2 * (v / 2) + Z.b2z bit)%Z.
Proof.
  pose proof (shiftr_set_lsb v bit) as Hs.
  rewrite !(Z.shiftr_div_pow2 _ 1) in Hs by lia. change (2 ^ 1)%Z with 2%Z in Hs.
  pose proof (lsb_set_lsb v bit) as Hl. rewrite lsb_testbit in Hl.
  pose proof (Z.bit0_mod (Core.set_lsb v (Z.b2z bit))) as Hm. rewrite Hl in Hm.
  lia.
Qed.

Lemma set_lsb_idempotent (v : Z) (bit : bool) :
  Core.set_lsb (Core.set_lsb v (Z.b2z bit)) (Z.b2z bit) = Core.set_lsb v (Z.b2z bit).
Proof.
  rewrite !set_lsb_value. pose proof (b2z_range bit). lia.
Qed.

Lemma channel_at_Some (px : gmap (nat * nat) pixel) (x y ch : nat) (v : Z) :
  channel_at px (x, y, ch) = Some v <->
  exists p, px !! (x, y) = Some p /\ channel p ch = v.
Proof.
  unfold channel_at. destruct (px !! (x, y)) as [p|]; simpl; split.
  - intros [= <-]. eauto.
  - intros (p' & [= <-] & <-). done.
  - done.
  - intros (? & ? & _). done.
Qed.

Lemma pixel_of_channels (px1 px2 : gmap (nat * nat) pixel) (x y : nat) :
  (forall ch, (ch < 3)%nat -> channel_at px1 (x, y, ch) = channel_at px2 (x, y, ch)) ->
  px1 !! (x, y) = px2 !! (x, y).
Proof.
  intros H.
  pose proof (H 0%nat ltac:(lia)) as H0. pose proof (H 1%nat ltac:(lia)) as H1.
  pose proof (H 2%nat ltac:(lia)) as H2. unfold channel_at in *.
  destruct (px1 !! (x, y)) as [[[r1 g1] b1]|], (px2 !! (x, y)) as [[[r2 g2] b2]|];
    simpl in *; congruence.
Qed.

(** After a successful run of the loop each channel value is the old one,
    or the old one with its least-significant bit set to a watermark bit. *)
Lemma embed_loop_channel (locs : list location) (wm : bitstring)
    (px px' : gmap (nat * nat) pixel) (c' : nat) (loc : location) :
  NoDup locs -> Forall (fun loc => loc.2 < 3)%nat locs ->
  Core.embed_loop locs wm px 0 = Ok (px', c') ->
  (loc.2 < 3)%nat ->
  channel_at px' loc = channel_at px loc
  \/ exists (old : Z) (bit : bool),
       channel_at px loc = Some old
       /\ channel_at px' loc = Some (Core.set_lsb old (Z.b2z bit)).
Proof.
  intros Hnd Hch Hrun Hloc.
  destruct (embed_loop_spec _ _ _ _ _ _ Hnd Hch (Nat.le_0_l _) Hrun) as (_ & Hset & Hframe).
  destruct (decide (loc ∈ take (Nat.min (length locs) (length wm - 0)) locs)) as [Hin|Hout].
  - right. apply elem_of_take in Hin as (i & Hi & Hlt).
    destruct (Hset i loc Hlt Hi) as (old & bit & Hold & Hbit & Hnew).
    by exists old, bit.
  - left. by apply Hframe.
Qed.

Section EmbeddingFacts.
Context {G : PRNG}.

Lemma add_watermark_image_channel (img : image) (payload key : pystr) (img' : image)
    (loc : location) :
  Core.add_watermark_image img payload key = Ok (Some img') ->
  (loc.2 < 3)%nat ->
  channel_at (pixels img') loc = channel_at (pixels img) loc
  \/ exists (old : Z) (bit : bool),
       channel_at (pixels img) loc = Some old
       /\ channel_at (pixels img') loc = Some (Core.set_lsb old (Z.b2z bit)).
Proof.
  intros (pb & locs & Hpb & Hlocs & Hfit & Hrun & Hsize)%add_watermark_image_inv Hloc.
  assert (NoDup locs) as Hnd by (by eapply get_pixel_sequence_NoDup).
  assert (Forall (fun loc => loc.2 < 3)%nat locs) as Hch.
  { apply Forall_forall. intros [[x y] ch] Hin.
    by apply (get_pixel_sequence_elem _ _ _ _ _ _ _ Hlocs) in Hin as (_ & _ & ?). }
  by apply (embed_loop_channel _ _ _ _ _ loc Hnd Hch Hrun Hloc).
Qed.

Lemma add_watermark_image_size (img : image) (payload key : pystr) (img' : image) :
  Core.add_watermark_image img payload key = Ok (Some img') -> size img' = size img.
Proof. by intros (_ & _ & _ & _ & _ & _ & ?)%add_watermark_image_inv. Qed.

Lemma add_watermark_image_dom (img : image) (payload key : pystr) (img' : image)
    (x y : nat) :
  Core.add_watermark_image img payload key = Ok (Some img') ->
  is_Some (pixels img' !! (x, y)) <-> is_Some (pixels img !! (x, y)).
Proof.
  intros Hadd.
  assert (forall px : gmap (nat * nat) pixel,
            is_Some (px !! (x, y)) <-> is_Some (channel_at px (x, y, 0%nat))) as Hc.
  { intros px. unfold channel_at. destruct (px !! (x, y)); simpl; split;
      intros [? ?]; try done; by eexists. }
  rewrite !Hc.
  assert (((x, y, 0%nat) : location).2 < 3)%nat as H03 by (simpl; lia).
  destruct (add_watermark_image_channel img payload key img' (x, y, 0%nat) Hadd H03)
    as [->|(old & bit & -> & ->)]; [done|].
  split; intros _; by eexists.
Qed.

Lemma add_watermark_image_wf (img : image) (payload key : pystr) (img' : image) :
  Core.add_watermark_image img payload key = Ok (Some img') ->
  wf_image img -> wf_image img'.
Proof.
  intros Hadd Hwf x y Hx Hy.
  rewrite (add_watermark_image_size _ _ _ _ Hadd) in Hx, Hy.
  apply (add_watermark_image_dom img payload key img' x y Hadd). by apply Hwf.
Qed.
End EmbeddingFacts.

(** ** The bits the detector reads and the text it returns *)

Lemma bits_to_bytes_take_upto (n : nat) :
  forall s : bitstring, (length s <= n)%nat ->
    bits_to_bytes (take (length s / 8 * 8) s) = bits_to_bytes s.
Proof.
  induction n as [|n IH]; intros s Hn.
  - destruct s; [done|simpl in Hn; lia].
  - destruct s as [|a7 [|a6 [|a5 [|a4 [|a3 [|a2 [|a1 [|a0 rest]]]]]]]]; try done.
    cbn [length] in Hn.
    replace (length (a7 :: a6 :: a5 :: a4 :: a3 :: a2 :: a1 :: a0 :: rest) / 8 * 8)%nat
      with (8 + length rest / 8 * 8)%nat by (cbn [length]; lia).
    cbn [Nat.add take bits_to_bytes]. f_equal. apply IH. lia.
Qed.

Lemma bits_to_bytes_take (s : bitstring) :
  bits_to_bytes (take (length s / 8 * 8) s) = bits_to_bytes s.
Proof. by apply (bits_to_bytes_take_upto (length s)). Qed.

Lemma binary_to_str_decode (bits : bitstring) :
  Core._binary_to_str bits = Ok (utf8_decode_replace (bits_to_bytes bits)).
Proof. by rewrite binary_to_str_ok, bits_to_bytes_take. Qed.

Lemma lsb_stream_bits (px : gmap (nat * nat) pixel) (locs : list location)
    (stream : bitstring) :
  lsb_stream px locs = Some stream ->
  length stream = length locs
  /\ forall (i : nat) (loc : location), locs !! i = Some loc ->
       exists v : Z, channel_at px loc = Some v /\ stream !! i = Some (Z.testbit v 0).
Proof.
  intros H%lsb_stream_Forall2. split; [symmetry; by eapply Forall2_length|].
  intros i loc Hloc.
  destruct (Forall2_lookup_l _ _ _ _ _ H Hloc) as (b & Hb & Hlsb).
  unfold lsb_at in Hlsb. destruct (channel_at px loc) as [v|]; [|done].
  exists v. split; [done|]. injection Hlsb as <-. by rewrite <- lsb_testbit.
Qed.

(** * The claims *)

(** C2.  For every width, height and encodable secret key, and a generator
    that meets the contract of [_randbelow], [_get_pixel_sequence] returns a
    sequence; any two calls with these arguments return that same sequence;
    its length is [width * height * 3]; it has no repeated element; and its
    elements are exactly the triples [(x, y, channel)] with [x < width],
    [y < height] and [channel < 3]. *)
Theorem C2_pixel_sequence_is_permutation {G : PRNG} (width height : nat)
    (key : pystr) (kb : list Z) :
  lawful G ->
  utf8_encode key = Some kb ->
  exists locs,
    Core._get_pixel_sequence width height key = Ok locs
    /\ (forall r1 r2,
          Core._get_pixel_sequence width height key = r1 ->
          Core._get_pixel_sequence width height key = r2 -> r1 = r2)
    /\ length locs = (width * height * 3)%nat
    /\ NoDup locs
    /\ (forall x y channel : nat,
          (x, y, channel) ∈ locs <-> (x < width /\ y < height /\ channel < 3)%nat).
Proof.
  intros HG Hkey.
  destruct (get_pixel_sequence_total HG width height key kb Hkey) as [locs Hlocs].
  exists locs. split_and!.
  - done.
  - congruence.
  - by eapply get_pixel_sequence_length.
  - by eapply get_pixel_sequence_NoDup.
  - intros x y channel. by eapply get_pixel_sequence_elem.
Qed.

Lemma C2_pixel_sequence_is_permutation_witness :
  exists locs,
    Core._get_pixel_sequence (G := lcg) 3 2 [107; 49]%Z = Ok locs
    /\ length locs = 18%nat /\ NoDup locs.
Proof.
  destruct (C2_pixel_sequence_is_permutation (G := lcg) 3 2 [107; 49]%Z [107; 49]%Z
              lcg_lawful eq_refl) as (locs & H1 & _ & H2 & H3 & _).
  exists locs. split_and!; [exact H1|exact H2|exact H3].
Defined.

(** The seed of the code is the seed of the specification: masking with
    [0xFFFFFFFF] is reduction modulo [2^32]. *)
Lemma seed_fold_is_seed_of_key (key_bytes : list Z) :
  seed_fold key_bytes = Spec.seed_of_key key_bytes.
Proof.
  unfold seed_fold, Spec.seed_of_key. generalize 0%Z.
  induction key_bytes as [|b bs IH]; intros acc; [done|].
  cbn [fold_left]. rewrite IH. f_equal.
  apply (Z.land_ones (acc * 31 + b) 32). lia.
Qed.

(** C3.  The claim says that [_get_pixel_sequence] shuffles the ordered
    location list once, with no other draw from the seeded generator before.
    The code first shuffles the list of pixel coordinates with the same
    generator and throws the result away; the draws of that shuffle move the
    generator on.  For a 2 by 1 image and the key "k", under the generator
    of the Python runtime, the code and the four steps of the specification
    return different sequences. *)
Theorem C3_core_differs_from_spec_algorithm :
  Core._get_pixel_sequence (G := mt19937 64) 2 1 [107]%Z
  = Ok [(0, 0, 0); (0, 0, 2); (0, 0, 1); (1, 0, 0); (1, 0, 2); (1, 0, 1)]%nat
  /\ Spec.generate (G := mt19937 64) 2 1 [107]%Z
     = Ok [(0, 0, 0); (0, 0, 2); (1, 0, 2); (1, 0, 0); (1, 0, 1); (0, 0, 1)]%nat
  /\ Core._get_pixel_sequence (G := mt19937 64) 2 1 [107]%Z
     <> Spec.generate (G := mt19937 64) 2 1 [107]%Z.
Proof.
  assert (Core._get_pixel_sequence (G := mt19937 64) 2 1 [107]%Z
          = Ok [(0, 0, 0); (0, 0, 2); (0, 0, 1); (1, 0, 0); (1, 0, 2); (1, 0, 1)]%nat) as Hc
    by (vm_compute; reflexivity).
  assert (Spec.generate (G := mt19937 64) 2 1 [107]%Z
          = Ok [(0, 0, 0); (0, 0, 2); (1, 0, 2); (1, 0, 0); (1, 0, 1); (0, 0, 1)]%nat) as Hs
    by (vm_compute; reflexivity).
  split_and!; [done..|]. rewrite Hc, Hs. discriminate.
Qed.

(** C4.  The claim says that the generator of [api/watermarker.py] returns
    the sequence of the generator of [core/watermarker.py].  The two differ:
    the one of [api] appends [(y_coord, x_coord, channel_idx)] and shuffles
    once, the one of [core] appends [(x_coord, y_coord, channel_idx)] and
    shuffles after a first shuffle of the pixel coordinates.  For a 2 by 1
    image and the key "k", under the generator of the Python runtime, the
    two sequences are different. *)
Theorem C4_api_differs_from_core :
  Core._get_pixel_sequence (G := mt19937 64) 2 1 [107]%Z
  = Ok [(0, 0, 0); (0, 0, 2); (0, 0, 1); (1, 0, 0); (1, 0, 2); (1, 0, 1)]%nat
  /\ Api._get_pixel_sequence (G := mt19937 64) 2 1 [107]%Z
     = Ok [(0, 0, 0); (0, 0, 2); (0, 1, 2); (0, 1, 0); (0, 1, 1); (0, 0, 1)]%nat
  /\ Api._get_pixel_sequence (G := mt19937 64) 2 1 [107]%Z
     <> Core._get_pixel_sequence (G := mt19937 64) 2 1 [107]%Z.
Proof.
  assert (Core._get_pixel_sequence (G := mt19937 64) 2 1 [107]%Z
          = Ok [(0, 0, 0); (0, 0, 2); (0, 0, 1); (1, 0, 0); (1, 0, 2); (1, 0, 1)]%nat) as Hc
    by (vm_compute; reflexivity).
  assert (Api._get_pixel_sequence (G := mt19937 64) 2 1 [107]%Z
          = Ok [(0, 0, 0); (0, 0, 2); (0, 1, 2); (0, 1, 0); (0, 1, 1); (0, 0, 1)]%nat) as Ha
    by (vm_compute; reflexivity).
  split_and!; [done..|]. rewrite Hc, Ha. discriminate.
Qed.

(** C9.  [_binary_to_str] returns normally on every bit string: the result
    is the lossy UTF-8 decoding of the bytes assembled from the input cut to
    the largest multiple of 8 bits.  In particular, when the input is the
    bits of an encoded string followed by a proper, non-empty part of the
    encoding of one more character and by fewer than 8 further bits, the
    result is the string followed by one replacement character. *)
Theorem C9_binary_to_str_never_raises :
  (forall bits : bitstring,
     Core._binary_to_str bits
     = Ok (utf8_decode_replace (bits_to_bytes (take (length bits / 8 * 8) bits))))
  /\ (forall (s : pystr) (c : Z) (bs cs : list Z) (k : nat) (extra : bitstring),
        utf8_encode s = Some bs ->
        utf8_encode_char c = Some cs ->
        (0 < k < length cs)%nat ->
        (length extra < 8)%nat ->
        Core._binary_to_str (((bs ++ take k cs) ≫= format_08b) ++ extra)
        = Ok (s ++ [REPLACEMENT])).
Proof.
  split; [apply binary_to_str_ok|].
  intros s c bs cs k extra Hs Hc Hk Hextra.
  assert (Forall (fun b => 0 <= b < 256)%Z (bs ++ take k cs)) as Hbytes.
  { apply Forall_app. split.
    - eapply Forall_impl; [by apply (utf8_encode_bytes s)|]. simpl. lia.
    - apply Forall_take. eapply Forall_impl;
        [by eapply encoded_bytes, utf8_encode_char_shape|]. simpl. lia. }
  rewrite binary_to_str_ok.
  rewrite take_app_length' by (rewrite length_app, length_format_bind; lia).
  rewrite bits_to_bytes_bind by done.
  rewrite (utf8_decode_encode_app s) by done.
  by rewrite (utf8_decode_truncated c) by (by apply utf8_encode_char_shape || done).
Qed.

Lemma C9_binary_to_str_never_raises_witness :
  Core._binary_to_str ((([104; 105] ++ take 2 [226; 130; 172]) ≫= format_08b) ++ [true; false])%Z
  = Ok ([104; 105] ++ [REPLACEMENT])%Z.
Proof.
  apply (proj2 C9_binary_to_str_never_raises [104; 105]%Z 0x20AC%Z
           [104; 105]%Z [226; 130; 172]%Z 2%nat [true; false]).
  - reflexivity.
  - reflexivity.
  - simpl. lia.
  - simpl. lia.
Defined.

(** C1.  Round trip.  For a well-formed RGB image, an encodable payload and
    key, and a generator that meets the contract of [_randbelow]: when the
    payload bits plus the 16 delimiter bits fit into the
    [width * height * 3] slots and are within the extraction bound
    [expected_max_len_chars * 8 * 2 + 16], [add_watermark_image] succeeds and
    [detect_watermark_image] with the same key returns the payload on the
    image it produced. *)
Theorem C1_round_trip {G : PRNG} (img : image) (payload key : pystr)
    (pb kb : list Z) (expected_max_len_chars : Z) :
  lawful G ->
  wf_image img ->
  utf8_encode payload = Some pb ->
  utf8_encode key = Some kb ->
  (length pb * 8 + 16 <= (size img).1 * (size img).2 * 3)%nat ->
  (Z.of_nat (length pb * 8) + 16 <= expected_max_len_chars * 8 * 2 + 16)%Z ->
  exists img',
    Core.add_watermark_image img payload key = Ok (Some img')
    /\ Core.detect_watermark_image img' key expected_max_len_chars = Ok (Some payload).
Proof.
  intros HG Hwf Hpb Hkey Hfit Hbound.
  destruct (get_pixel_sequence_total HG (size img).1 (size img).2 key kb Hkey)
    as [locs Hlocs].
  by apply (round_trip_along img payload key key pb locs).
Qed.

Lemma C1_round_trip_witness :
  exists img',
    Core.add_watermark_image (G := lcg) sample_image [65]%Z [107; 49]%Z = Ok (Some img')
    /\ Core.detect_watermark_image (G := lcg) img' [107; 49]%Z 1 = Ok (Some [65]%Z).
Proof.
  apply (C1_round_trip (G := lcg) sample_image [65]%Z [107; 49]%Z [65]%Z [107; 49]%Z 1%Z
           lcg_lawful sample_image_wf eq_refl eq_refl).
  - simpl. lia.
  - simpl. lia.
Defined.

(** C5.  Capacity boundary.  For a well-formed image, an encodable payload
    and key, and a generator that meets the contract of [_randbelow],
    [add_watermark_image] returns [False] exactly when the payload bits plus
    the 16 delimiter bits exceed [width * height * 3].  So a payload of
    exactly [width * height * 3 - 16] bits is embedded, any longer one is
    refused, and on an image without pixels every embedding is refused. *)
Theorem C5_capacity_boundary {G : PRNG} (img : image) (payload key : pystr)
    (pb kb : list Z) :
  lawful G ->
  wf_image img ->
  utf8_encode payload = Some pb ->
  utf8_encode key = Some kb ->
  let total_bits_available := ((size img).1 * (size img).2 * 3)%nat in
  let payload_bits := (length pb * 8)%nat in
  (Core.add_watermark_image img payload key = Ok None
   <-> (total_bits_available < payload_bits + 16)%nat)
  /\ ((payload_bits + 16 = total_bits_available)%nat ->
      exists img', Core.add_watermark_image img payload key = Ok (Some img'))
  /\ ((total_bits_available < payload_bits + 16)%nat ->
      Core.add_watermark_image img payload key = Ok None)
  /\ (((size img).1 * (size img).2 = 0)%nat ->
      Core.add_watermark_image img payload key = Ok None).
Proof.
  intros HG Hwf Hpb Hkey total payload_bits. subst total payload_bits.
  assert ((length pb * 8 + 16 <= (size img).1 * (size img).2 * 3)%nat ->
          exists img', Core.add_watermark_image img payload key = Ok (Some img')) as Hfits.
  { intros Hfit.
    destruct (get_pixel_sequence_total HG (size img).1 (size img).2 key kb Hkey)
      as [locs Hlocs].
    destruct (embed_loop_total locs ((pb ≫= format_08b) ++ Core.DELIMITER) (pixels img) 0)
      as [r Hrun].
    { intros x y ch. by eapply wf_image_readable. }
    eexists. by eapply add_watermark_image_fits. }
  split_and!.
  - split.
    + intros Hnone.
      destruct (decide ((size img).1 * (size img).2 * 3 < length pb * 8 + 16)%nat)
        as [|Hfit]; [done|].
      destruct Hfits as [img' Himg']; [lia|]. congruence.
    + by apply add_watermark_image_too_big.
  - intros Heq. apply Hfits. lia.
  - by apply add_watermark_image_too_big.
  - intros Hzero. apply (add_watermark_image_too_big img payload key pb); [done|lia].
Qed.

Lemma C5_capacity_boundary_witness :
  (Core.add_watermark_image (G := lcg) sample_image [65]%Z [107; 49]%Z = Ok None
   <-> (24 < 8 + 16)%nat)
  /\ exists img', Core.add_watermark_image (G := lcg) sample_image [65]%Z [107; 49]%Z
                  = Ok (Some img').
Proof.
  destruct (C5_capacity_boundary (G := lcg) sample_image [65]%Z [107; 49]%Z [65]%Z [107; 49]%Z
              lcg_lawful sample_image_wf eq_refl eq_refl) as (H1 & H2 & _).
  split; [exact H1|]. apply H2. reflexivity.
Defined.

(** C8.  Empty payload.  For a well-formed image with at least 16 bit slots,
    an encodable key, a generator that meets the contract of [_randbelow] and
    a non-negative [expected_max_len_chars]: embedding the empty string
    succeeds; the first 16 locations of the sequence then hold the delimiter
    bits and every channel value at another location is unchanged; and
    [detect_watermark_image] with the same key returns the empty string. *)
Theorem C8_empty_payload {G : PRNG} (img : image) (key : pystr) (kb : list Z)
    (expected_max_len_chars : Z) :
  lawful G ->
  wf_image img ->
  utf8_encode key = Some kb ->
  (16 <= (size img).1 * (size img).2 * 3)%nat ->
  (0 <= expected_max_len_chars)%Z ->
  exists img' locs,
    Core.add_watermark_image img [] key = Ok (Some img')
    /\ Core._get_pixel_sequence (size img).1 (size img).2 key = Ok locs
    /\ (forall (i : nat) (loc : location), (i < 16)%nat -> locs !! i = Some loc ->
          lsb_at (pixels img') loc = Core.DELIMITER !! i)
    /\ (forall loc : location, (loc.2 < 3)%nat -> loc ∉ take 16 locs ->
          channel_at (pixels img') loc = channel_at (pixels img) loc)
    /\ Core.detect_watermark_image img' key expected_max_len_chars = Ok (Some []).
Proof.
  intros HG Hwf Hkey Hfit Hm.
  destruct (get_pixel_sequence_total HG (size img).1 (size img).2 key kb Hkey)
    as [locs Hlocs].
  destruct (round_trip_along img [] key key [] locs expected_max_len_chars)
    as (img' & Hadd & Hdetect); [done..|simpl; lia|simpl; lia|].
  exists img', locs. split_and!; [done..| | |done].
  all: apply add_watermark_image_inv in Hadd as (pb & locs' & [= <-] & Hlocs' & _ & Hrun & _).
  all: assert (locs' = locs) as -> by congruence.
  all: assert (NoDup locs) as Hnd by (by eapply get_pixel_sequence_NoDup).
  all: assert (Forall (fun loc => loc.2 < 3)%nat locs) as Hch
    by (apply Forall_forall; intros [[x y] ch] Hin;
        by apply (get_pixel_sequence_elem _ _ _ _ _ _ _ Hlocs) in Hin as (_ & _ & ?)).
  all: pose proof (get_pixel_sequence_length _ _ _ _ Hlocs) as Hlen.
  all: destruct (embed_loop_spec _ _ _ _ _ _ Hnd Hch (Nat.le_0_l _) Hrun)
    as (_ & Hset & Hframe).
  all: change (([] : list Z) ≫= format_08b) with ([] : list bool) in *.
  all: change (length ([] ++ Core.DELIMITER)) with 16%nat in *.
  all: replace (Nat.min (length locs) (16 - 0)) with 16%nat in * by lia.
  - intros i loc Hi Hloc.
    destruct (Hset i loc Hi Hloc) as (old & bit & _ & Hbit & Hnew).
    unfold lsb_at. rewrite Hnew. simpl. rewrite lsb_set_lsb. by rewrite <- Hbit.
  - exact Hframe.
Qed.

Lemma C8_empty_payload_witness :
  exists img',
    Core.add_watermark_image (G := lcg) sample_image [] [107; 49]%Z = Ok (Some img')
    /\ Core.detect_watermark_image (G := lcg) img' [107; 49]%Z 200 = Ok (Some []).
Proof.
  destruct (C8_empty_payload (G := lcg) sample_image [107; 49]%Z [107; 49]%Z 200%Z
              lcg_lawful sample_image_wf eq_refl) as (img' & locs & H1 & _ & _ & _ & H2).
  - simpl. lia.
  - lia.
  - exists img'. split; [exact H1|exact H2].
Defined.

(** C6.  Bounded decode.  For a well-formed image, an encodable key and a
    generator that meets the contract of [_randbelow], let [stream] hold, for
    each location of the location sequence in order, bit 0 of the channel
    value the location selects, and let [window] be its first
    [expected_max_len_chars * 8 * 2 + 16] bits.  [detect_watermark_image]
    returns [None] exactly when no prefix of [window] ends with the
    delimiter.  When [k] is the length of the shortest prefix that ends with
    it, the result is the [k - 16] bits before the delimiter, cut into bytes
    of 8 bits, most significant bit first, and decoded as UTF-8 with
    replacement.  In particular, when a prefix of [window] is the UTF-8
    encoding of a string, 8 bits a byte, followed by the delimiter, the
    result is that string. *)
Theorem C6_bounded_decode {G : PRNG} (img : image) (key : pystr) (kb : list Z)
    (expected_max_len_chars : Z) :
  lawful G ->
  wf_image img ->
  utf8_encode key = Some kb ->
  exists (locs : list location) (stream : bitstring),
    Core._get_pixel_sequence (size img).1 (size img).2 key = Ok locs
    /\ lsb_stream (pixels img) locs = Some stream
    /\ length stream = length locs
    /\ (forall (i : nat) (loc : location), locs !! i = Some loc ->
          exists v : Z,
            channel_at (pixels img) loc = Some v /\ stream !! i = Some (Z.testbit v 0))
    /\ let window := take (Z.to_nat (expected_max_len_chars * 8 * 2 + 16)) stream in
       (Core.detect_watermark_image img key expected_max_len_chars = Ok None
        <-> forall k, (k <= length window)%nat ->
              endswith (take k window) Core.DELIMITER = false)
       /\ (forall k, (k <= length window)%nat ->
             endswith (take k window) Core.DELIMITER = true ->
             (forall k', (k' < k)%nat -> endswith (take k' window) Core.DELIMITER = false) ->
             Core.detect_watermark_image img key expected_max_len_chars
             = Ok (Some (utf8_decode_replace (bits_to_bytes (take (k - 16) window)))))
       /\ (forall (k : nat) (s : pystr) (bs : list Z),
             (k <= length window)%nat ->
             utf8_encode s = Some bs ->
             take k window = (bs ≫= format_08b) ++ Core.DELIMITER ->
             Core.detect_watermark_image img key expected_max_len_chars = Ok (Some s)).
Proof.
  intros HG Hwf Hkey.
  destruct (get_pixel_sequence_total HG (size img).1 (size img).2 key kb Hkey)
    as [locs Hlocs].
  destruct (lsb_stream_total (pixels img) locs) as [stream Hstream].
  { intros x y ch. by eapply wf_image_readable. }
  destruct (lsb_stream_bits _ _ _ Hstream) as [Hlen Hbits].
  exists locs, stream. split_and!; [done..|].
  set (max_bits := (expected_max_len_chars * 8 * 2 + 16)%Z).
  intros window.
  assert (length window = Nat.min (length stream) (Z.to_nat (max_bits - Z.of_nat 0))) as Hwin.
  { subst window. rewrite length_take. lia. }
  assert (forall k, (k <= length window)%nat -> take k window = take k stream) as Hpre.
  { intros k Hk. subst window. rewrite take_take. f_equal. rewrite length_take in Hk. lia. }
  assert (forall k, (k <= length window)%nat ->
            endswith (take k window) Core.DELIMITER = true ->
            (forall k', (k' < k)%nat -> endswith (take k' window) Core.DELIMITER = false) ->
            Core.detect_watermark_image img key expected_max_len_chars
            = Ok (Some (utf8_decode_replace (bits_to_bytes (take (k - 16) window)))))
    as Hfound.
  { rewrite (detect_watermark_image_unfold img key _ locs Hlocs). fold max_bits.
    destruct (extract_loop_spec (pixels img) max_bits locs stream
                (lsb_stream_Forall2 _ _ _ Hstream) [] 0)
      as [[Hrun Hno]|(k0 & Hk0 & Hyes & Hfirst & Hrun)];
      rewrite <- Hwin in *; rewrite Hrun; simpl in *.
    - intros k Hk Hend. destruct k as [|k]; [done|].
      rewrite Hpre in Hend by done. rewrite Hno in Hend by lia. done.
    - intros k Hk Hend Hmin.
      assert (k = k0) as ->.
      { destruct (decide (k < k0)%nat) as [Hlt|Hge].
        - destruct k as [|k]; [done|].
          rewrite Hpre, Hfirst in Hend by lia. done.
        - destruct (decide (k = k0)) as [|Hne]; [done|].
          specialize (Hmin k0 ltac:(lia)). rewrite Hpre in Hmin by lia. congruence. }
      rewrite binary_to_str_decode. simpl. do 3 f_equal.
      rewrite <- (Hpre k0) by lia. rewrite (take_take window (k0 - 16) k0).
      by replace (Nat.min (k0 - 16) k0) with (k0 - 16)%nat by lia. }
  split_and!; [|exact Hfound|].
  - rewrite (detect_watermark_image_unfold img key _ locs Hlocs). fold max_bits.
    destruct (extract_loop_spec (pixels img) max_bits locs stream
                (lsb_stream_Forall2 _ _ _ Hstream) [] 0)
      as [[Hrun Hno]|(k0 & Hk0 & Hyes & Hfirst & Hrun)];
      rewrite <- Hwin in *; rewrite Hrun; simpl in *.
    + split; [|done]. intros _ k Hk. destruct k as [|k]; [done|].
      rewrite Hpre by done. apply Hno. lia.
    + rewrite binary_to_str_decode. simpl.
      split; [done|]. intros Hall. specialize (Hall k0 ltac:(lia)).
      rewrite Hpre in Hall by lia. congruence.
  - intros k s bs Hk Hs Htake.
    assert (Forall (fun b => 0 <= b < 245)%Z bs) as Hbs by (by eapply utf8_encode_bytes).
    assert (length (take k window) = (length bs * 8 + 16)%nat) as Hklen.
    { rewrite Htake, length_app, length_format_bind. done. }
    rewrite length_take in Hklen.
    assert (k = length bs * 8 + 16)%nat as Hkeq by lia.
    rewrite (Hfound k Hk).
    + do 2 f_equal.
      assert (take (k - 16) window = bs ≫= format_08b) as ->.
      { replace (take (k - 16) window) with (take (k - 16) (take k window))
          by (rewrite take_take; f_equal; lia).
        rewrite Htake.
        rewrite take_app_le by (rewrite length_format_bind; lia).
        apply take_ge. rewrite length_format_bind. lia. }
      rewrite bits_to_bytes_bind.
      * by apply utf8_decode_encode.
      * eapply Forall_impl; [exact Hbs|]. simpl. lia.
    + rewrite Htake. apply endswith_app.
    + intros k' Hk'.
      replace (take k' window) with (take k' (take k window))
        by (rewrite take_take; f_equal; lia).
      rewrite Htake.
      apply no_early_delimiter; [done|lia].
Qed.

Lemma C6_bounded_decode_witness :
  exists (img' : image) (locs : list location) (stream : bitstring),
    Core.add_watermark_image (G := lcg) sample_image [65]%Z [107; 49]%Z = Ok (Some img')
    /\ Core._get_pixel_sequence (G := lcg) (size img').1 (size img').2 [107; 49]%Z = Ok locs
    /\ lsb_stream (pixels img') locs = Some stream
    /\ take 24 stream = ([65]%Z ≫= format_08b) ++ Core.DELIMITER
    /\ Core.detect_watermark_image (G := lcg) img' [107; 49]%Z 1 = Ok (Some [65]%Z).
Proof.
  destruct (add_watermark_image_succeeds (G := lcg) sample_image [65]%Z [107; 49]%Z
              [65]%Z [107; 49]%Z lcg_lawful sample_image_wf eq_refl eq_refl)
    as [img' Hadd]; [simpl; lia|].
  pose proof (add_watermark_image_wf sample_image _ _ img' Hadd sample_image_wf) as Hwf.
  destruct (C6_bounded_decode (G := lcg) img' [107; 49]%Z [107; 49]%Z 1%Z
              lcg_lawful Hwf eq_refl)
    as (locs & stream & Hlocs & Hstream & Hlen & _ & _ & _ & Hframed).
  destruct (add_watermark_image_inv _ _ _ _ Hadd)
    as (pb & locs' & Hpb & Hlocs' & Hfit & Hrun & Hsize).
  injection Hpb as <-. rewrite <- Hsize, Hlocs in Hlocs'. injection Hlocs' as <-.
  assert (length locs = 24%nat) as Hlocs24.
  { rewrite (get_pixel_sequence_length _ _ _ _ Hlocs), Hsize. reflexivity. }
  destruct (embedded_stream locs (([65]%Z ≫= format_08b) ++ Core.DELIMITER)
              (pixels sample_image) (pixels img') (length [65]%Z * 8 + 16)%nat
              (get_pixel_sequence_NoDup _ _ _ _ Hlocs)) as (stream' & Hstream' & Htake).
  - apply Forall_forall. intros [[x y] ch] Hin.
    by apply (get_pixel_sequence_elem _ _ _ _ _ _ _ Hlocs) in Hin as (_ & _ & ?).
  - rewrite Hlocs24. simpl. lia.
  - intros x y ch Hin. rewrite Hsize in Hlocs.
    exact (wf_image_readable sample_image _ _ x y ch sample_image_wf Hlocs Hin).
  - exact Hrun.
  - rewrite Hstream in Hstream'. injection Hstream' as <-.
    change (length (([65]%Z ≫= format_08b) ++ Core.DELIMITER)) with 24%nat in Htake.
    exists img', locs, stream. split_and!; [exact Hadd|exact Hlocs|exact Hstream|exact Htake|].
    apply (Hframed 24%nat [65]%Z [65]%Z).
    + rewrite length_take, Hlen, Hlocs24. simpl. lia.
    + reflexivity.
    + rewrite take_take. exact Htake.
Defined.

(** C7.  Frame condition of the encoder.  When [add_watermark_image]
    succeeds, with [binary_watermark] the payload bits followed by the 16
    delimiter bits and [n] its length: at each of the first [n] locations of
    the location sequence the selected channel value becomes
    [(old & ~1) | bit] for the corresponding bit, so its least-significant
    bit is that bit and its upper bits are those of [old]; every channel
    value at a location outside the first [n] is unchanged; and the size of
    the image is unchanged. *)
Theorem C7_encode_frame {G : PRNG} (img : image) (payload key : pystr) (img' : image) :
  Core.add_watermark_image img payload key = Ok (Some img') ->
  exists (bits : bitstring) (locs : list location),
    Core._str_to_binary payload = Ok bits
    /\ Core._get_pixel_sequence (size img).1 (size img).2 key = Ok locs
    /\ size img' = size img
    /\ let binary_watermark := bits ++ Core.DELIMITER in
       let n := length binary_watermark in
       (n = length bits + 16 /\ n <= length locs)%nat
       /\ (forall (i : nat) (loc : location) (bit : bool),
             (i < n)%nat -> locs !! i = Some loc -> binary_watermark !! i = Some bit ->
             exists old new : Z,
               channel_at (pixels img) loc = Some old
               /\ channel_at (pixels img') loc = Some new
               /\ new = Core.set_lsb old (Z.b2z bit)
               /\ Core.lsb new = bit
               /\ Z.shiftr new 1 = Z.shiftr old 1)
       /\ (forall loc : location, (loc.2 < 3)%nat -> loc ∉ take n locs ->
             channel_at (pixels img') loc = channel_at (pixels img) loc).
Proof.
  intros (pb & locs & Hpb & Hlocs & Hfit & Hrun & Hsize)%add_watermark_image_inv.
  exists (pb ≫= format_08b), locs.
  assert (NoDup locs) as Hnd by (by eapply get_pixel_sequence_NoDup).
  assert (Forall (fun loc => loc.2 < 3)%nat locs) as Hch.
  { apply Forall_forall. intros [[x y] ch] Hin.
    by apply (get_pixel_sequence_elem _ _ _ _ _ _ _ Hlocs) in Hin as (_ & _ & ?). }
  pose proof (get_pixel_sequence_length _ _ _ _ Hlocs) as Hlen.
  destruct (embed_loop_spec _ _ _ _ _ _ Hnd Hch (Nat.le_0_l _) Hrun) as (_ & Hset & Hframe).
  assert (length ((pb ≫= format_08b) ++ Core.DELIMITER) = (length pb * 8 + 16)%nat) as Hwm.
  { by rewrite length_app, length_format_bind. }
  rewrite Hwm in Hset, Hframe.
  replace (Nat.min (length locs) (length pb * 8 + 16 - 0)) with (length pb * 8 + 16)%nat
    in * by lia.
  split_and!.
  - unfold Core._str_to_binary, str_encode_utf8. by rewrite Hpb.
  - done.
  - done.
  - intros binary_watermark n. subst n binary_watermark. rewrite Hwm. split_and!.
    + rewrite length_format_bind. lia.
    + lia.
    + intros i loc bit Hi Hloc Hbit.
      destruct (Hset i loc Hi Hloc) as (old & bit' & Hold & Hbit' & Hnew).
      simpl in Hbit'. assert (bit' = bit) as -> by congruence.
      exists old, (Core.set_lsb old (Z.b2z bit)). split_and!; [done..| |].
      * apply lsb_set_lsb.
      * apply shiftr_set_lsb.
    + exact Hframe.
Qed.

Lemma C7_encode_frame_witness :
  exists (img' : image) (bits : bitstring),
    Core.add_watermark_image (G := lcg) sample_image [65]%Z [107; 49]%Z = Ok (Some img')
    /\ Core._str_to_binary [65]%Z = Ok bits
    /\ size img' = size sample_image.
Proof.
  assert (exists img', Core.add_watermark_image (G := lcg) sample_image [65]%Z [107; 49]%Z
                       = Ok (Some img')) as [img' Hadd]
    by (eexists; vm_compute; reflexivity).
  destruct (C7_encode_frame (G := lcg) sample_image [65]%Z [107; 49]%Z img' Hadd)
    as (bits & locs & H1 & _ & H2 & _).
  exists img', bits. split_and!; [exact Hadd|exact H1|exact H2].
Defined.

(** ** Keys with the same seed *)

Lemma get_pixel_sequence_same_seed {G : PRNG} (w h : nat) (k1 k2 : pystr) (kb1 kb2 : list Z) :
  utf8_encode k1 = Some kb1 -> utf8_encode k2 = Some kb2 ->
  seed_fold kb1 = seed_fold kb2 ->
  Core._get_pixel_sequence w h k1 = Core._get_pixel_sequence w h k2.
Proof.
  intros H1 H2 Hseed. unfold Core._get_pixel_sequence, str_encode_utf8.
  rewrite H1, H2. simpl. by rewrite Hseed.
Qed.

Lemma utf8_encode_NUL (k : pystr) :
  utf8_encode (0%Z :: k) = (fun kb => 0%Z :: kb) <$> utf8_encode k.
Proof.
  cbn [utf8_encode]. change (utf8_encode_char 0) with (Some [0%Z]).
  by destruct (utf8_encode k).
Qed.

Lemma seed_fold_NUL (kb : list Z) : seed_fold (0%Z :: kb) = seed_fold kb.
Proof. reflexivity. Qed.

(** C10.  Seed-fold key collisions.  Prepending a NUL character to a key
    prepends a zero byte to its encoding and leaves the folded seed and the
    location sequence unchanged.  And for any two encodable keys with the
    same folded seed, under the conditions of the round trip, a payload
    embedded under the first key is returned by [detect_watermark_image]
    under the second. *)
Theorem C10_seed_fold_collisions {G : PRNG} :
  (forall (k : pystr) (kb : list Z),
     utf8_encode k = Some kb ->
     utf8_encode (0%Z :: k) = Some (0%Z :: kb)
     /\ seed_fold (0%Z :: kb) = seed_fold kb)
  /\ (forall (width height : nat) (k : pystr),
        Core._get_pixel_sequence width height (0%Z :: k)
        = Core._get_pixel_sequence width height k)
  /\ (forall (img : image) (payload k1 k2 : pystr) (pb kb1 kb2 : list Z)
             (expected_max_len_chars : Z),
        lawful G ->
        wf_image img ->
        utf8_encode payload = Some pb ->
        utf8_encode k1 = Some kb1 ->
        utf8_encode k2 = Some kb2 ->
        seed_fold kb1 = seed_fold kb2 ->
        (length pb * 8 + 16 <= (size img).1 * (size img).2 * 3)%nat ->
        (Z.of_nat (length pb * 8) + 16 <= expected_max_len_chars * 8 * 2 + 16)%Z ->
        exists img',
          Core.add_watermark_image img payload k1 = Ok (Some img')
          /\ Core.detect_watermark_image img' k2 expected_max_len_chars
             = Ok (Some payload)).
Proof.
  split_and!.
  - intros k kb Hk. rewrite utf8_encode_NUL, Hk. done.
  - intros w h k. destruct (utf8_encode k) as [kb|] eqn:Hk.
    + apply (get_pixel_sequence_same_seed w h _ _ (0%Z :: kb) kb); [|done..].
      by rewrite utf8_encode_NUL, Hk.
    + unfold Core._get_pixel_sequence, str_encode_utf8.
      by rewrite utf8_encode_NUL, Hk.
  - intros img payload k1 k2 pb kb1 kb2 m HG Hwf Hpb Hk1 Hk2 Hseed Hfit Hbound.
    destruct (get_pixel_sequence_total HG (size img).1 (size img).2 k1 kb1 Hk1)
      as [locs Hlocs].
    apply (round_trip_along img payload k1 k2 pb locs); [done..| |done|done].
    by rewrite <- (get_pixel_sequence_same_seed _ _ k1 k2 kb1 kb2).
Qed.

Lemma C10_seed_fold_collisions_witness :
  exists img',
    Core.add_watermark_image (G := lcg) sample_image [65]%Z [107; 49]%Z = Ok (Some img')
    /\ Core.detect_watermark_image (G := lcg) img' [0; 107; 49]%Z 1 = Ok (Some [65]%Z).
Proof.
  apply (proj2 (proj2 (C10_seed_fold_collisions (G := lcg)))
           sample_image [65]%Z [107; 49]%Z [0; 107; 49]%Z [65]%Z [107; 49]%Z [0; 107; 49]%Z 1%Z
           lcg_lawful sample_image_wf eq_refl eq_refl eq_refl eq_refl).
  - simpl. lia.
  - simpl. lia.
Defined.

(** * Further properties of the code *)

(** ** Further properties: strings and bits *)

Lemma str_to_binary_Ok (s : pystr) (bits : bitstring) :
  Core._str_to_binary s = Ok bits <->
  exists bs, utf8_encode s = Some bs /\ bits = bs ≫= format_08b.
Proof.
  unfold Core._str_to_binary, str_encode_utf8.
  destruct (utf8_encode s) as [bs|]; simpl; split.
  - intros [= <-]. eauto.
  - intros (bs' & [= <-] & ->). done.
  - done.
  - intros (? & ? & _). done.
Qed.

Lemma utf8_encode_char_Some (c : Z) : is_Some (utf8_encode_char c) <-> scalar_value c.
Proof.
  unfold utf8_encode_char, scalar_value.
  destruct (Z.ltb_spec c 0); [split; [intros [? ?]; done|lia]|].
  destruct (Z.ltb_spec c 0x80); [split; [lia|by eexists]|].
  destruct (Z.ltb_spec c 0x800); [split; [lia|by eexists]|].
  destruct (Z.ltb_spec c 0x10000).
  { destruct (Z.leb_spec 0xD800 c); destruct (Z.leb_spec c 0xDFFF); cbn [andb];
      (split; [intros [? ?]; (done || lia)|(by eexists) || lia]). }
  destruct (Z.ltb_spec c 0x110000); [split; [lia|by eexists]|].
  split; [intros [? ?]; done|lia].
Qed.

Lemma utf8_encode_Some (s : pystr) : is_Some (utf8_encode s) <-> Forall scalar_value s.
Proof.
  induction s as [|c s IH].
  - split; [constructor|by eexists].
  - rewrite Forall_cons, <- IH, <- utf8_encode_char_Some. cbn [utf8_encode].
    destruct (utf8_encode_char c), (utf8_encode s); split;
      try (intros [[? ?] [? ?]]); try (intros [? ?]); try done; eauto.
Qed.

Lemma utf8_encode_None (s : pystr) :
  utf8_encode s = None <-> Exists (fun c => ~ scalar_value c) s.
Proof.
  induction s as [|c s IH].
  - split; [done|by intros ?%Exists_nil].
  - rewrite Exists_cons, <- IH, <- utf8_encode_char_Some, <- eq_None_not_Some.
    cbn [utf8_encode].
    destruct (utf8_encode_char c), (utf8_encode s); split; try done; try tauto.
    all: intros [?|?]; done.
Qed.

(** X1.  Text to bits and back.  When [_str_to_binary] accepts a string, the
    bit string it returns has a length that is a multiple of 8 and
    [_binary_to_str] maps it back to the same string. *)
Theorem X1_str_binary_round_trip (s : pystr) (bits : bitstring) :
  Core._str_to_binary s = Ok bits ->
  (length bits mod 8 = 0)%nat /\ Core._binary_to_str bits = Ok s.
Proof.
  intros (bs & Hbs & ->)%str_to_binary_Ok. split.
  - rewrite length_format_bind. lia.
  - by apply binary_to_str_str_to_binary.
Qed.

Lemma X1_str_binary_round_trip_witness :
  (length (format_08b 195 ++ format_08b 169 ++ []) mod 8 = 0)%nat
  /\ Core._binary_to_str (format_08b 195 ++ format_08b 169 ++ []) = Ok [233%Z].
Proof.
  apply (X1_str_binary_round_trip [233%Z] (format_08b 195 ++ format_08b 169 ++ [])).
  reflexivity.
Defined.

Lemma get_pixel_sequence_bad_key {G : PRNG} (w h : nat) (key : pystr) :
  utf8_encode key = None -> Core._get_pixel_sequence w h key = Raise UnicodeEncodeError.
Proof. intros H. unfold Core._get_pixel_sequence, str_encode_utf8. by rewrite H. Qed.

(** X2.  Strings that UTF-8 cannot encode.  A payload that holds a surrogate
    or a code point outside the Unicode range makes [add_watermark_image]
    return [False]; a key that holds one makes [add_watermark_image] return
    [False] and [detect_watermark_image] return [None].  The
    [UnicodeEncodeError] is caught in both functions, whatever the image, the
    length hint and the generator. *)
Theorem X2_unencodable_strings_are_refused {G : PRNG} (img : image) (payload key : pystr)
    (expected_max_len_chars : Z) :
  (Exists (fun c => ~ scalar_value c) payload ->
   Core.add_watermark_image img payload key = Ok None)
  /\ (Exists (fun c => ~ scalar_value c) key ->
      Core.add_watermark_image img payload key = Ok None
      /\ Core.detect_watermark_image img key expected_max_len_chars = Ok None).
Proof.
  split.
  - intros Hp%utf8_encode_None.
    unfold Core.add_watermark_image, Core._str_to_binary, str_encode_utf8.
    destruct (size img). by rewrite Hp.
  - intros Hk%utf8_encode_None. split.
    + unfold Core.add_watermark_image, Core._str_to_binary, str_encode_utf8.
      destruct (size img) as [w h].
      destruct (utf8_encode payload) as [pb|]; [|done]. simpl.
      rewrite (get_pixel_sequence_bad_key w h key Hk).
      by destruct (_ <? _)%nat.
    + unfold Core.detect_watermark_image. destruct (size img) as [w h].
      by rewrite (get_pixel_sequence_bad_key w h key Hk).
Qed.

Lemma X2_unencodable_strings_are_refused_witness :
  Core.add_watermark_image (G := lcg) sample_image [0xD800%Z] [107%Z] = Ok None
  /\ Core.detect_watermark_image (G := lcg) sample_image [0xDFFF%Z] 200 = Ok None.
Proof.
  destruct (X2_unencodable_strings_are_refused (G := lcg) sample_image [0xD800%Z] [107%Z] 200)
    as [H1 _].
  destruct (X2_unencodable_strings_are_refused (G := lcg) sample_image [65%Z] [0xDFFF%Z] 200)
    as [_ H2].
  split.
  - apply H1. apply Exists_cons_hd. unfold scalar_value. lia.
  - apply H2. apply Exists_cons_hd. unfold scalar_value. lia.
Defined.

(** ** Further properties: the seed *)

Lemma seed_fold_from (acc : Z) (bs : list Z) :
  fold_left (fun seed_val char_code => Z.land (seed_val * 31 + char_code) 0xFFFFFFFF) bs
            (acc mod 2 ^ 32)%Z
  = (fold_left (fun a b => a * 31 + b)%Z bs acc mod 2 ^ 32)%Z.
Proof.
  revert acc. induction bs as [|b bs IH]; intros acc; [done|].
  cbn [fold_left].
  replace (Z.land (acc mod 2 ^ 32 * 31 + b) 0xFFFFFFFF) with ((acc * 31 + b) mod 2 ^ 32)%Z.
  - apply IH.
  - rewrite (Z.land_ones _ 32) by lia.
    rewrite <- (Z.add_mod_idemp_l (acc mod 2 ^ 32 * 31)) by lia.
    rewrite Z.mul_mod_idemp_l by lia.
    by rewrite Z.add_mod_idemp_l by lia.
Qed.

Lemma seed_fold_horner31 (key_bytes : list Z) :
  seed_fold key_bytes = (horner31 key_bytes mod 2 ^ 32)%Z.
Proof. unfold seed_fold, horner31. by rewrite <- seed_fold_from. Qed.

(** X9.  The seed is a polynomial hash.  The seed that [_get_pixel_sequence]
    folds from the key bytes [b_1 ... b_n] is
    [b_1 * 31^(n-1) + ... + b_n] reduced modulo [2^32], the masking at each
    step changes nothing else; it lies in [[0, 2^32)]. *)
Theorem X9_seed_is_polynomial_hash (key_bytes : list Z) :
  seed_fold key_bytes = (horner31 key_bytes mod 2 ^ 32)%Z
  /\ (0 <= seed_fold key_bytes < 2 ^ 32)%Z.
Proof.
  split; [apply seed_fold_horner31|].
  rewrite seed_fold_horner31. apply Z.mod_pos_bound. lia.
Qed.

Lemma horner31_app (xs ys : list Z) (acc : Z) :
  fold_left (fun a b => a * 31 + b)%Z (xs ++ ys) acc
  = fold_left (fun a b => a * 31 + b)%Z ys (fold_left (fun a b => a * 31 + b)%Z xs acc).
Proof. apply fold_left_app. Qed.

Lemma utf8_encode_ascii (s : pystr) :
  Forall (fun c => 0 <= c < 128)%Z s -> utf8_encode s = Some s.
Proof.
  induction 1 as [|c s Hc _ IH]; [done|].
  cbn [utf8_encode]. rewrite IH. unfold utf8_encode_char.
  destruct (Z.ltb_spec c 0); [lia|]. destruct (Z.ltb_spec c 0x80); [done|lia].
Qed.

(** X10.  Keys that differ in two adjacent characters.  Two ASCII keys
    [pre ++ [a; b] ++ suf] and [pre ++ [c; d] ++ suf] with
    [31 * a + b = 31 * c + d] have the same seed and the same location
    sequence, for every image size and every generator.  "Aa" and "BB" are
    such a pair. *)
Theorem X10_two_character_collisions {G : PRNG} (width height : nat)
    (pre suf : pystr) (a b c d : Z) :
  Forall (fun c => 0 <= c < 128)%Z (pre ++ [a; b] ++ suf) ->
  Forall (fun c => 0 <= c < 128)%Z (pre ++ [c; d] ++ suf) ->
  (31 * a + b = 31 * c + d)%Z ->
  seed_fold (pre ++ [a; b] ++ suf) = seed_fold (pre ++ [c; d] ++ suf)
  /\ Core._get_pixel_sequence width height (pre ++ [a; b] ++ suf)
     = Core._get_pixel_sequence width height (pre ++ [c; d] ++ suf).
Proof.
  intros H1 H2 Heq.
  assert (seed_fold (pre ++ [a; b] ++ suf) = seed_fold (pre ++ [c; d] ++ suf)) as Hseed.
  { rewrite !seed_fold_horner31. f_equal. unfold horner31.
    rewrite !horner31_app. cbn [fold_left]. f_equal. lia. }
  split; [done|].
  by apply (get_pixel_sequence_same_seed width height _ _ _ _
              (utf8_encode_ascii _ H1) (utf8_encode_ascii _ H2)).
Qed.

Lemma X10_two_character_collisions_witness :
  seed_fold [65; 97]%Z = seed_fold [66; 66]%Z
  /\ Core._get_pixel_sequence (G := lcg) 4 2 [65; 97]%Z
     = Core._get_pixel_sequence (G := lcg) 4 2 [66; 66]%Z.
Proof.
  apply (X10_two_character_collisions (G := lcg) 4 2 [] [] 65 97 66 66).
  - repeat constructor; lia.
  - repeat constructor; lia.
  - reflexivity.
Defined.

(** ** Further properties: the two generators *)

Section ShuffleNatural.
Context {G : PRNG} {A B : Type} (f : A -> B).

Lemma swap_fmap (x : list A) (i : nat) (j : Z) :
  swap (f <$> x) i j = result_map (fmap f) (swap x i j).
Proof.
  unfold swap. rewrite length_fmap.
  destruct (py_index (length x) j) as [j'|]; [|done].
  rewrite !list_lookup_fmap.
  destruct (x !! j') as [xj|]; [|done]. destruct (x !! i) as [xi|]; [|done].
  simpl. by rewrite !list_fmap_insert.
Qed.

Lemma shuffle_loop_fmap (i : nat) (x : list A) (g : rng) :
  shuffle_loop i (f <$> x) g
  = result_map (fun r => (f <$> r.1, r.2)) (shuffle_loop i x g).
Proof.
  revert x g. induction i as [|i IH]; intros x g; [done|].
  cbn [shuffle_loop]. destruct (_randbelow _ g) as [[j g']|]; [|done].
  rewrite swap_fmap. destruct (swap x (S i) j) as [x'| |]; [|done..].
  simpl. apply IH.
Qed.

Lemma shuffle_fmap (x : list A) (g : rng) :
  shuffle (f <$> x) g = result_map (fun r => (f <$> r.1, r.2)) (shuffle x g).
Proof. unfold shuffle. rewrite length_fmap. apply shuffle_loop_fmap. Qed.
End ShuffleNatural.

Lemma fmap_bind {A B C} (g : B -> C) (f : A -> list B) (l : list A) :
  g <$> (l ≫= f) = l ≫= (fun a => g <$> f a).
Proof.
  induction l as [|a l IH]; [done|]. csimpl. by rewrite fmap_app, IH.
Qed.

Lemma api_locations_swapped (w h : nat) :
  Api.all_locations w h = swap_xy <$> Spec.ordered_locations w h.
Proof.
  unfold Api.all_locations, Spec.ordered_locations.
  rewrite fmap_bind. apply list_bind_ext; [|done]. intros y.
  rewrite fmap_bind. apply list_bind_ext; [|done]. intros x.
  rewrite fmap_bind. apply list_bind_ext; [|done]. intros c. done.
Qed.

Lemma elem_of_ordered_locations (w h x y c : nat) :
  (x, y, c) ∈ Spec.ordered_locations w h <-> (x < w /\ y < h /\ c < 3)%nat.
Proof. apply elem_of_all_locations. Qed.

(** X11.  The sequence of the API module.  [_get_pixel_sequence] of
    [api/watermarker.py] returns the sequence of the specification's
    algorithm with the first two components of every location exchanged:
    its locations are [(y, x, channel)].  When it returns, the sequence has
    [width * height * 3] locations, no location twice, and holds exactly the
    triples with first component below [height], second below [width] and
    channel below 3. *)
Theorem X11_api_sequence_is_swapped_spec {G : PRNG} (width height : nat) (key : pystr) :
  Api._get_pixel_sequence width height key
  = result_map (fmap swap_xy) (Spec.generate width height key)
  /\ (forall locs, Api._get_pixel_sequence width height key = Ok locs ->
        length locs = (width * height * 3)%nat
        /\ NoDup locs
        /\ forall a b c : nat,
             (a, b, c) ∈ locs <-> (a < height /\ b < width /\ c < 3)%nat).
Proof.
  assert (Api._get_pixel_sequence width height key
          = result_map (fmap swap_xy) (Spec.generate width height key)) as Heq.
  { unfold Api._get_pixel_sequence, Spec.generate, str_encode_utf8.
    destruct (utf8_encode key) as [kb|]; [|done]. simpl.
    rewrite api_locations_swapped, shuffle_fmap, seed_fold_is_seed_of_key.
    by destruct (shuffle _ _) as [[l g]| |]. }
  split; [done|]. intros locs Hlocs. rewrite Heq in Hlocs.
  destruct (Spec.generate width height key) as [l| |] eqn:Hspec; try done.
  injection Hlocs as <-.
  assert (l ≡ₚ Spec.ordered_locations width height) as Hperm.
  { unfold Spec.generate in Hspec.
    apply bind_Ok in Hspec as (kb & _ & ([l' g'] & Hsh & [= <-])%bind_Ok).
    by eapply shuffle_Permutation. }
  assert (Inj (=) (=) swap_xy) as Hinj.
  { intros [[a b] c] [[a' b'] c'] [= -> -> ->]. done. }
  split_and!.
  - rewrite length_fmap, Hperm. apply length_all_locations.
  - apply NoDup_fmap_2; [done|]. rewrite Hperm. apply NoDup_all_locations.
  - intros a b c. rewrite list_elem_of_fmap. split.
    + intros ([[x y] c'] & [= -> -> ->] & Hin). rewrite Hperm in Hin.
      apply elem_of_ordered_locations in Hin. lia.
    + intros Hin. exists (b, a, c). split; [done|]. rewrite Hperm.
      apply elem_of_ordered_locations. lia.
Qed.

Lemma X11_api_sequence_is_swapped_spec_witness :
  exists locs, Api._get_pixel_sequence (G := lcg) 1 2 [107%Z] = Ok locs
    /\ ((1, 0, 0)%nat ∈ locs <-> (1 < 2 /\ 0 < 1 /\ 0 < 3)%nat).
Proof.
  assert (exists locs, Api._get_pixel_sequence (G := lcg) 1 2 [107%Z] = Ok locs) as [locs H]
    by (eexists; vm_compute; reflexivity).
  exists locs. split; [exact H|].
  destruct (proj2 (X11_api_sequence_is_swapped_spec (G := lcg) 1 2 [107%Z]) locs H)
    as (_ & _ & Hin).
  apply Hin.
Defined.

Lemma shuffle_short {G : PRNG} {A} (x : list A) (g : rng) :
  (length x <= 1)%nat -> shuffle x g = Ok (x, g).
Proof. intros H. unfold shuffle. by replace (length x - 1)%nat with 0%nat by lia. Qed.

Lemma length_all_pixel_coords (w h : nat) :
  length (Core.all_pixel_coords w h) = (h * w)%nat.
Proof.
  unfold Core.all_pixel_coords.
  rewrite (length_bind_const _ _ w), length_seq; [done|].
  intros y. by rewrite (length_bind_const _ _ 1), length_seq; [lia|].
Qed.

(** X12.  Images of at most one pixel.  When [width * height <= 1] the
    sequence of [core/watermarker.py] is the sequence of the specification's
    algorithm: the shuffle of the pixel coordinates that the core module
    does first draws nothing from the generator. *)
Theorem X12_single_pixel_matches_spec {G : PRNG} (width height : nat) (key : pystr) :
  (width * height <= 1)%nat ->
  Core._get_pixel_sequence width height key = Spec.generate width height key.
Proof.
  intros Hsmall. unfold Core._get_pixel_sequence, Spec.generate.
  destruct (str_encode_utf8 key) as [kb| |]; [|done..]. simpl.
  rewrite shuffle_short by (rewrite length_all_pixel_coords; lia). simpl.
  by rewrite seed_fold_is_seed_of_key.
Qed.

Lemma X12_single_pixel_matches_spec_witness :
  Core._get_pixel_sequence (G := mt19937 64) 1 1 [107%Z]
  = Spec.generate (G := mt19937 64) 1 1 [107%Z].
Proof.
  apply (X12_single_pixel_matches_spec (G := mt19937 64) 1 1 [107%Z]). simpl. lia.
Defined.

(** ** Further properties: the detector's bound *)

Lemma length_utf8_decode_replace_upto (n : nat) :
  forall bs : list Z, (length bs <= n)%nat ->
    (length (utf8_decode_replace bs) <= length bs)%nat.
Proof.
  induction n as [|n IH]; intros bs Hn.
  - destruct bs; [done|simpl in Hn; lia].
  - destruct bs as [|b0 t0]; [done|]. cbn [length] in Hn.
    rewrite utf8_decode_replace_cons.
    repeat case_match; subst; cbn [length] in *;
      repeat match goal with
      | |- context [utf8_decode_replace ?t] =>
          let H := fresh in
          assert (length (utf8_decode_replace t) <= length t)%nat as H
            by (apply IH; cbn [length]; lia);
          revert H; generalize (utf8_decode_replace t); intros ? ?
      end; cbn [length] in *; lia.
Qed.

Lemma length_utf8_decode_replace (bs : list Z) :
  (length (utf8_decode_replace bs) <= length bs)%nat.
Proof. by apply (length_utf8_decode_replace_upto (length bs)). Qed.

Lemma length_bits_to_bytes_upto (n : nat) :
  forall s : bitstring, (length s <= n)%nat ->
    (length (bits_to_bytes s) * 8 <= length s)%nat.
Proof.
  induction n as [|n IH]; intros s Hn.
  - destruct s; [simpl; lia|simpl in Hn; lia].
  - destruct s as [|a7 [|a6 [|a5 [|a4 [|a3 [|a2 [|a1 [|a0 rest]]]]]]]];
      cbn [bits_to_bytes length] in *; try lia.
    assert (length (bits_to_bytes rest) * 8 <= length rest)%nat by (apply IH; lia).
    lia.
Qed.

Lemma length_bits_to_bytes (s : bitstring) :
  (length (bits_to_bytes s) * 8 <= length s)%nat.
Proof. by apply (length_bits_to_bytes_upto (length s)). Qed.

Lemma binary_to_str_length (bits : bitstring) (text : pystr) :
  Core._binary_to_str bits = Ok text -> (length text * 8 <= length bits)%nat.
Proof.
  rewrite binary_to_str_ok. intros Htext.
  assert (text = utf8_decode_replace (bits_to_bytes (take (length bits / 8 * 8) bits)))
    as -> by congruence.
  pose proof (length_utf8_decode_replace
                (bits_to_bytes (take (length bits / 8 * 8) bits))) as H1.
  pose proof (length_bits_to_bytes (take (length bits / 8 * 8) bits)) as H2.
  rewrite length_take in H2. lia.
Qed.

Lemma extract_loop_missing_pixel (x y ch : nat) (rest : list location)
    (px : gmap (nat * nat) pixel) (max_bits : Z) (acc : bitstring) (c : nat) :
  (Z.of_nat c < max_bits)%Z ->
  px !! (x, y) = None ->
  Core.extract_loop ((x, y, ch) :: rest) px max_bits acc c = Raise IndexError.
Proof.
  intros Hc Hp. cbn [Core.extract_loop].
  rewrite (proj2 (Z.ltb_lt _ _) Hc). unfold pixels_get. by rewrite Hp.
Qed.

Lemma lsb_at_pixel (px : gmap (nat * nat) pixel) (x y ch : nat) (p : pixel) :
  px !! (x, y) = Some p -> lsb_at px (x, y, ch) = Some (Core.lsb (channel p ch)).
Proof. intros Hp. unfold lsb_at, channel_at. by rewrite Hp. Qed.

Lemma extract_loop_Some_bound (px : gmap (nat * nat) pixel) (max_bits : Z)
    (locs : list location) :
  forall (acc : bitstring) (c : nat) (text : pystr),
    length acc = c ->
    Core.extract_loop locs px max_bits acc c = Ok (Some text) ->
    (Z.of_nat (length text) * 8 + 16 <= max_bits)%Z.
Proof.
  induction locs as [|[[x y] ch] rest IH]; intros acc c text Hc Hrun; [done|].
  destruct (decide (Z.of_nat c < max_bits)%Z) as [Hlt|Hge].
  2:{ rewrite extract_loop_stop in Hrun by lia. done. }
  destruct (px !! (x, y)) as [p|] eqn:Hp.
  2:{ by rewrite extract_loop_missing_pixel in Hrun. }
  rewrite (extract_loop_cons _ _ _ _ _ _ _ _ _ Hlt (lsb_at_pixel _ _ _ ch _ Hp)) in Hrun.
  set (bit := Core.lsb (channel p ch)) in *.
  destruct (endswith (acc ++ [bit]) Core.DELIMITER) eqn:Hend.
  - apply bind_Ok in Hrun as (text' & Htext & [= <-]).
    apply binary_to_str_length in Htext.
    apply endswith_true in Hend as [Hle _].
    rewrite length_take, length_app in Htext. rewrite length_app in Hle.
    change (length Core.DELIMITER) with 16%nat in *. cbn [length] in *. lia.
  - apply (IH (acc ++ [bit]) (S c)) in Hrun; [done|].
    rewrite length_app. cbn [length]. lia.
Qed.

(** X3.  Length of a detected text.  A text that [detect_watermark_image]
    returns has at most [2 * expected_max_len_chars] characters: the loop
    reads at most [expected_max_len_chars * 8 * 2 + 16] bits, 16 of them are
    the delimiter, and no character decodes from less than 8 bits. *)
Theorem X3_detected_text_is_bounded {G : PRNG} (img : image) (key : pystr)
    (expected_max_len_chars : Z) (text : pystr) :
  Core.detect_watermark_image img key expected_max_len_chars = Ok (Some text) ->
  (Z.of_nat (length text) <= 2 * expected_max_len_chars)%Z.
Proof.
  unfold Core.detect_watermark_image. destruct (size img) as [w h].
  destruct (Core._get_pixel_sequence w h key) as [locs| |]; [|done..]. simpl.
  destruct (Core.extract_loop _ _ _ _ _) as [r| |] eqn:Hrun; [|done..].
  simpl. intros [= ->].
  apply extract_loop_Some_bound in Hrun; [|done]. lia.
Qed.

Lemma X3_detected_text_is_bounded_witness :
  exists img',
    Core.add_watermark_image (G := lcg) sample_image [65]%Z [107; 49]%Z = Ok (Some img')
    /\ Core.detect_watermark_image (G := lcg) img' [107; 49]%Z 1 = Ok (Some [65]%Z)
    /\ (Z.of_nat (length [65]%Z) <= 2 * 1)%Z.
Proof.
  destruct (get_pixel_sequence_total lcg_lawful (size sample_image).1 (size sample_image).2
              [107; 49]%Z [107; 49]%Z eq_refl) as [locs Hlocs].
  destruct (round_trip_along (G := lcg) sample_image [65]%Z [107; 49]%Z [107; 49]%Z [65]%Z
              locs 1%Z sample_image_wf eq_refl Hlocs Hlocs) as (img' & Hadd & Hdetect).
  - simpl. lia.
  - simpl. lia.
  - exists img'. split; [exact Hadd|]. split; [exact Hdetect|].
    exact (X3_detected_text_is_bounded (G := lcg) img' [107; 49]%Z 1 [65]%Z Hdetect).
Defined.

(** ** Further properties: a length hint that is too small *)

(** X4.  A length hint that is too small.  For a well-formed image, an
    encodable payload and key, a generator that meets the contract of
    [_randbelow] and a payload that fits: when the payload bits plus the 16
    delimiter bits are more than the [expected_max_len_chars * 8 * 2 + 16]
    bits the detector reads, the embedding succeeds and the detection on
    its result returns [None]. *)
Theorem X4_short_hint_finds_nothing {G : PRNG} (img : image) (payload key : pystr)
    (pb kb : list Z) (expected_max_len_chars : Z) :
  lawful G ->
  wf_image img ->
  utf8_encode payload = Some pb ->
  utf8_encode key = Some kb ->
  (length pb * 8 + 16 <= (size img).1 * (size img).2 * 3)%nat ->
  (expected_max_len_chars * 8 * 2 + 16 < Z.of_nat (length pb * 8) + 16)%Z ->
  exists img',
    Core.add_watermark_image img payload key = Ok (Some img')
    /\ Core.detect_watermark_image img' key expected_max_len_chars = Ok None.
Proof.
  intros HG Hwf Hpb Hkey Hfit Hshort.
  destruct (get_pixel_sequence_total HG (size img).1 (size img).2 key kb Hkey)
    as [locs Hlocs].
  set (bits := pb ≫= format_08b). set (wm := bits ++ Core.DELIMITER).
  assert (length bits = (length pb * 8)%nat) as Hbits by apply length_format_bind.
  assert (length wm = (length pb * 8 + 16)%nat) as Hwm.
  { subst wm. by rewrite length_app, Hbits. }
  assert (NoDup locs) as Hnd by (by eapply get_pixel_sequence_NoDup).
  assert (Forall (fun loc => loc.2 < 3)%nat locs) as Hch.
  { apply Forall_forall. intros [[x y] ch] Hin.
    by apply (get_pixel_sequence_elem _ _ _ _ _ _ _ Hlocs) in Hin as (_ & _ & ?). }
  pose proof (get_pixel_sequence_length _ _ _ _ Hlocs) as Hlen.
  assert (forall x y ch, (x, y, ch) ∈ locs -> is_Some (pixels img !! (x, y))) as Hdom.
  { intros x y ch. by eapply wf_image_readable. }
  destruct (embed_loop_total locs wm (pixels img) 0 Hdom) as [[px' c'] Hrun].
  exists {| size := size img; pixels := px' |}. split.
  { by rewrite (add_watermark_image_fits img payload key pb locs Hpb Hfit Hlocs _ Hrun). }
  assert (length wm <= length locs)%nat as Hwl by lia.
  destruct (embedded_stream locs wm _ _ _ Hnd Hch Hwl Hdom Hrun)
    as (stream & Hstream & Htake).
  rewrite (detect_watermark_image_unfold _ key expected_max_len_chars locs) by done.
  simpl.
  destruct (extract_loop_spec px' (expected_max_len_chars * 8 * 2 + 16)%Z locs stream
              (lsb_stream_Forall2 _ _ _ Hstream) [] 0)
    as [[-> _]|(k & Hk & Hyes & _ & _)]; [done|]. exfalso.
  simpl in Hyes.
  assert (take k stream = take k wm) as Hpre.
  { rewrite <- Htake, take_take. f_equal. lia. }
  rewrite Hpre in Hyes. subst wm bits.
  rewrite no_early_delimiter in Hyes; [done| |lia].
  eapply Forall_impl; [by apply (utf8_encode_bytes payload)|]. simpl. lia.
Qed.

Lemma X4_short_hint_finds_nothing_witness :
  exists img',
    Core.add_watermark_image (G := lcg) sample_image [65]%Z [107; 49]%Z = Ok (Some img')
    /\ Core.detect_watermark_image (G := lcg) img' [107; 49]%Z 0 = Ok None.
Proof.
  apply (X4_short_hint_finds_nothing (G := lcg) sample_image [65]%Z [107; 49]%Z
           [65]%Z [107; 49]%Z 0%Z lcg_lawful sample_image_wf eq_refl eq_refl).
  - simpl. lia.
  - simpl. lia.
Defined.

(** ** Further properties: what an embedding does to the image *)

Section Invariants.
Context {G : PRNG}.

(** X5.  What an embedding preserves.  When [add_watermark_image] succeeds,
    the new image has the size of the old one, it is well formed when the old
    one is, its channel values are 8-bit values when those of the old one
    are, and every channel value differs from the old one by at most 1,
    above the least-significant bit not at all. *)
Theorem X5_embedding_invariants (img : image) (payload key : pystr) (img' : image) :
  Core.add_watermark_image img payload key = Ok (Some img') ->
  size img' = size img
  /\ (wf_image img -> wf_image img')
  /\ (rgb8 img -> rgb8 img')
  /\ (forall (loc : location) (old new : Z),
        (loc.2 < 3)%nat ->
        channel_at (pixels img) loc = Some old ->
        channel_at (pixels img') loc = Some new ->
        (Z.abs (new - old) <= 1 /\ new / 2 = old / 2)%Z).
Proof.
  intros Hadd.
  assert (forall (loc : location) (old new : Z),
            (loc.2 < 3)%nat ->
            channel_at (pixels img) loc = Some old ->
            channel_at (pixels img') loc = Some new ->
            new = old \/ exists bit : bool, new = (2 * (old / 2) + Z.b2z bit)%Z) as Hcases.
  { intros loc old new Hloc Hold Hnew.
    destruct (add_watermark_image_channel img payload key img' loc Hadd Hloc)
      as [Heq|(old' & bit & Hold' & Hnew')].
    - left. congruence.
    - right. exists bit. rewrite <- set_lsb_value. congruence. }
  split_and!.
  - by apply (add_watermark_image_size img payload key).
  - by apply (add_watermark_image_wf img payload key).
  - intros Hrgb [x y] r' g' b' Hp'.
    destruct (proj1 (add_watermark_image_dom img payload key img' x y Hadd))
      as [[[r g] b] Hp]; [by eexists|].
    destruct (Hrgb _ _ _ _ Hp) as (Hr & Hg & Hb).
    assert (forall ch, channel_at (pixels img) (x, y, ch) = Some (channel (r, g, b) ch)) as Ho.
    { intros ch. unfold channel_at. by rewrite Hp. }
    assert (forall ch, channel_at (pixels img') (x, y, ch) = Some (channel (r', g', b') ch))
      as Hn.
    { intros ch. unfold channel_at. by rewrite Hp'. }
    assert (2 < 3)%nat as H23 by lia. assert (1 < 3)%nat as H13 by lia.
    assert (0 < 3)%nat as H03 by lia.
    pose proof (Hcases (x, y, 0%nat) _ _ H03 (Ho 0%nat) (Hn 0%nat)) as H0.
    pose proof (Hcases (x, y, 1%nat) _ _ H13 (Ho 1%nat) (Hn 1%nat)) as H1.
    pose proof (Hcases (x, y, 2%nat) _ _ H23 (Ho 2%nat) (Hn 2%nat)) as H2.
    simpl in H0, H1, H2.
    destruct H0 as [->|[bit0 ->]], H1 as [->|[bit1 ->]], H2 as [->|[bit2 ->]];
      try pose proof (b2z_range bit0); try pose proof (b2z_range bit1);
      try pose proof (b2z_range bit2); lia.
  - intros loc old new Hloc Hold Hnew.
    destruct (Hcases loc old new Hloc Hold Hnew) as [->|[bit ->]].
    + split; [lia|done].
    + pose proof (b2z_range bit). lia.
Qed.

(** X6.  Embedding twice.  Embedding the same payload under the same key
    into the result of a successful embedding succeeds and returns that
    result unchanged. *)
Theorem X6_embedding_is_idempotent (img : image) (payload key : pystr) (img' : image) :
  Core.add_watermark_image img payload key = Ok (Some img') ->
  Core.add_watermark_image img' payload key = Ok (Some img').
Proof.
  intros Hadd.
  pose proof Hadd as (pb & locs & Hpb & Hlocs & Hfit & Hrun & Hsize)%add_watermark_image_inv.
  assert (NoDup locs) as Hnd by (by eapply get_pixel_sequence_NoDup).
  assert (Forall (fun loc => loc.2 < 3)%nat locs) as Hch.
  { apply Forall_forall. intros [[x y] ch] Hin.
    by apply (get_pixel_sequence_elem _ _ _ _ _ _ _ Hlocs) in Hin as (_ & _ & ?). }
  pose proof (get_pixel_sequence_length _ _ _ _ Hlocs) as Hlen.
  set (wm := (pb ≫= format_08b) ++ Core.DELIMITER) in *.
  assert (length wm = (length pb * 8 + 16)%nat) as Hwm.
  { subst wm. by rewrite length_app, length_format_bind. }
  assert (length pb * 8 + 16 <= length locs)%nat as Hcap by lia.
  destruct (embed_loop_spec _ _ _ _ _ _ Hnd Hch (Nat.le_0_l _) Hrun) as (_ & Hset & Hframe).
  rewrite Hwm in Hset, Hframe.
  replace (Nat.min (length locs) (length pb * 8 + 16 - 0)) with (length pb * 8 + 16)%nat
    in * by lia.
  assert (forall (k : nat) (px : gmap (nat * nat) pixel) (c : nat),
            (c + k = length wm)%nat ->
            (forall i loc, (c <= i < length wm)%nat -> locs !! i = Some loc ->
               is_Some (channel_at px loc)) ->
            exists r, Core.embed_loop (drop c locs) wm px c = Ok r) as Htotal.
  { induction k as [|k IHk]; intros px c Hck Hread.
    - rewrite embed_loop_done by lia. by eexists.
    - destruct (lookup_lt_is_Some_2 locs c) as [[[x y] ch] Hloc]; [lia|].
      rewrite (drop_S _ _ _ Hloc).
      assert (c <= c < length wm)%nat as Hcc by lia.
      destruct (Hread c _ Hcc Hloc) as [v Hv].
      apply channel_at_Some in Hv as (p & Hp & _).
      destruct (lookup_lt_is_Some_2 wm c) as [bit Hbit]; [lia|].
      destruct (IHk (<[(x, y) := write_bit p ch (Z.b2z bit)]> px) (S c)) as [r Hr]; [lia| |].
      + intros i [[x' y'] ch'] Hi Hloc'.
        assert (c <= i < length wm)%nat as Hci by lia.
        destruct (Hread i _ Hci Hloc') as [v' Hv'].
        apply channel_at_Some in Hv' as (p' & Hp' & _).
        unfold channel_at.
        destruct (decide ((x, y) = (x', y'))) as [[= <- <-]|Hne].
        * rewrite lookup_insert_eq. by eexists.
        * rewrite lookup_insert_ne, Hp' by done. by eexists.
      + exists r. apply embed_loop_cons; [lia|]. eauto. }
  destruct (Htotal (length wm) (pixels img') 0%nat) as [[px'' c''] Hrun']; [lia| |].
  { intros i loc Hi Hloc.
    assert (i < length pb * 8 + 16)%nat as Hi' by lia.
    destruct (Hset i loc Hi' Hloc) as (old & bit & _ & _ & ->). by eexists. }
  rewrite drop_0 in Hrun'.
  rewrite <- Hsize in Hlocs, Hfit.
  rewrite (add_watermark_image_fits img' payload key pb locs Hpb Hfit Hlocs _ Hrun').
  simpl. do 2 f_equal. destruct img' as [sz' px']. simpl in *. f_equal.
  destruct (embed_loop_spec _ _ _ _ _ _ Hnd Hch (Nat.le_0_l _) Hrun')
    as (_ & Hset' & Hframe').
  fold wm in Hset', Hframe'. rewrite Hwm in Hset', Hframe'.
  replace (Nat.min (length locs) (length pb * 8 + 16 - 0)) with (length pb * 8 + 16)%nat
    in * by lia.
  apply map_eq. intros [x y]. apply pixel_of_channels. intros ch Hc.
  destruct (decide ((x, y, ch) ∈ take (length pb * 8 + 16) locs)) as [Hin|Hout].
  - apply elem_of_take in Hin as (i & Hi & Hlt).
    destruct (Hset i _ Hlt Hi) as (old & bit & _ & Hbit & Hnew).
    destruct (Hset' i _ Hlt Hi) as (old' & bit' & Hold' & Hbit' & Hnew').
    rewrite Hnew', Hnew. f_equal.
    assert (bit' = bit) as -> by (simpl in *; congruence).
    assert (old' = Core.set_lsb old (Z.b2z bit)) as -> by congruence.
    apply set_lsb_idempotent.
  - by apply Hframe'.
Qed.
End Invariants.

Lemma X5_embedding_invariants_witness :
  exists img',
    Core.add_watermark_image (G := lcg) sample_image [65]%Z [107; 49]%Z = Ok (Some img')
    /\ size img' = size sample_image /\ wf_image img'.
Proof.
  destruct (add_watermark_image_succeeds (G := lcg) sample_image [65]%Z [107; 49]%Z
              [65]%Z [107; 49]%Z lcg_lawful sample_image_wf eq_refl eq_refl)
    as [img' Hadd]; [simpl; lia|].
  destruct (X5_embedding_invariants (G := lcg) sample_image [65]%Z [107; 49]%Z img' Hadd)
    as (Hsize & Hwf & _).
  exists img'. split; [exact Hadd|]. split; [exact Hsize|exact (Hwf sample_image_wf)].
Defined.

Lemma X6_embedding_is_idempotent_witness :
  exists img',
    Core.add_watermark_image (G := lcg) sample_image [65]%Z [107; 49]%Z = Ok (Some img')
    /\ Core.add_watermark_image (G := lcg) img' [65]%Z [107; 49]%Z = Ok (Some img').
Proof.
  destruct (add_watermark_image_succeeds (G := lcg) sample_image [65]%Z [107; 49]%Z
              [65]%Z [107; 49]%Z lcg_lawful sample_image_wf eq_refl eq_refl)
    as [img' Hadd]; [simpl; lia|].
  exists img'. split; [exact Hadd|].
  exact (X6_embedding_is_idempotent (G := lcg) sample_image [65]%Z [107; 49]%Z img' Hadd).
Defined.

(** ** Further properties: embedding over an embedding *)

(** X7.  A second embedding replaces the first.  For a well-formed image,
    two encodable payloads that both fit, an encodable key and a generator
    that meets the contract of [_randbelow]: embedding the first payload and
    then the second under the same key succeeds twice, and the detection on
    the final image returns the second payload (when the length hint covers
    it), whatever the lengths of the two payloads. *)
Theorem X7_second_embedding_wins {G : PRNG} (img : image) (first second key : pystr)
    (fb sb kb : list Z) (expected_max_len_chars : Z) :
  lawful G ->
  wf_image img ->
  utf8_encode first = Some fb ->
  utf8_encode second = Some sb ->
  utf8_encode key = Some kb ->
  (length fb * 8 + 16 <= (size img).1 * (size img).2 * 3)%nat ->
  (length sb * 8 + 16 <= (size img).1 * (size img).2 * 3)%nat ->
  (Z.of_nat (length sb * 8) + 16 <= expected_max_len_chars * 8 * 2 + 16)%Z ->
  exists img1 img2,
    Core.add_watermark_image img first key = Ok (Some img1)
    /\ Core.add_watermark_image img1 second key = Ok (Some img2)
    /\ Core.detect_watermark_image img2 key expected_max_len_chars = Ok (Some second).
Proof.
  intros HG Hwf Hfb Hsb Hkb Hfit1 Hfit2 Hbound.
  destruct (add_watermark_image_succeeds img first key fb kb HG Hwf Hfb Hkb Hfit1)
    as [img1 Hadd1].
  pose proof (add_watermark_image_wf img first key img1 Hadd1 Hwf) as Hwf1.
  pose proof (add_watermark_image_size img first key img1 Hadd1) as Hsize1.
  destruct (get_pixel_sequence_total HG (size img1).1 (size img1).2 key kb Hkb)
    as [locs Hlocs].
  destruct (round_trip_along img1 second key key sb locs expected_max_len_chars)
    as (img2 & Hadd2 & Hdetect); [done..|by rewrite Hsize1|done|].
  by exists img1, img2.
Qed.

Lemma X7_second_embedding_wins_witness :
  exists img1 img2,
    Core.add_watermark_image (G := lcg) sample_image [65]%Z [107; 49]%Z = Ok (Some img1)
    /\ Core.add_watermark_image (G := lcg) img1 [] [107; 49]%Z = Ok (Some img2)
    /\ Core.detect_watermark_image (G := lcg) img2 [107; 49]%Z 200 = Ok (Some []).
Proof.
  apply (X7_second_embedding_wins (G := lcg) sample_image [65]%Z [] [107; 49]%Z
           [65]%Z [] [107; 49]%Z 200%Z lcg_lawful sample_image_wf eq_refl eq_refl eq_refl).
  - simpl. lia.
  - simpl. lia.
  - simpl. lia.
Defined.

(** ** Further properties: images without a watermark *)

Lemma endswith_replicate (n : nat) (bit : bool) :
  endswith (replicate n bit) Core.DELIMITER = false.
Proof.
  apply not_true_is_false. intros [Hle Hd]%endswith_true.
  rewrite length_replicate in Hle, Hd. rewrite drop_replicate in Hd.
  change (length Core.DELIMITER) with 16%nat in *.
  replace (n - (n - 16))%nat with 16%nat in Hd by lia.
  by destruct bit.
Qed.

Lemma extract_loop_uniform (px : gmap (nat * nat) pixel) (bit : bool) (max_bits : Z)
    (locs : list location) :
  (forall xy r g b, px !! xy = Some (r, g, b) ->
     Core.lsb r = bit /\ Core.lsb g = bit /\ Core.lsb b = bit) ->
  forall c : nat,
    Core.extract_loop locs px max_bits (replicate c bit) c = Ok None
    \/ Core.extract_loop locs px max_bits (replicate c bit) c = Raise IndexError.
Proof.
  intros Huni. induction locs as [|[[x y] ch] rest IH]; intros c; [by left|].
  destruct (decide (Z.of_nat c < max_bits)%Z) as [Hlt|Hge].
  2:{ left. apply extract_loop_stop. lia. }
  destruct (px !! (x, y)) as [[[r g] b]|] eqn:Hp.
  2:{ right. by apply extract_loop_missing_pixel. }
  rewrite (extract_loop_cons _ _ _ _ _ _ _ _ _ Hlt (lsb_at_pixel _ _ _ ch _ Hp)).
  destruct (Huni _ _ _ _ Hp) as (Hr & Hg & Hb).
  assert (Core.lsb (channel (r, g, b) ch) = bit) as ->.
  { unfold channel. destruct (ch =? 0)%nat; [done|]. by destruct (ch =? 1)%nat. }
  rewrite <- replicate_S_end, endswith_replicate. apply IH.
Qed.

Lemma get_pixel_sequence_returns {G : PRNG} (w h : nat) (key : pystr) :
  lawful G -> Core._get_pixel_sequence w h key <> Diverge.
Proof.
  intros HG. destruct (utf8_encode key) as [kb|] eqn:Hkey.
  - destruct (get_pixel_sequence_total HG w h key kb Hkey) as [locs ->]. done.
  - unfold Core._get_pixel_sequence, str_encode_utf8. by rewrite Hkey.
Qed.

(** X8.  An image without a watermark.  When all channel values of an image
    have the same least-significant bit, [detect_watermark_image] returns
    [None] for every key and every length hint, with a generator that meets
    the contract of [_randbelow]: the delimiter holds both bit values, so it
    is never read. *)
Theorem X8_uniform_image_has_no_watermark {G : PRNG} (bit : bool) (img : image)
    (key : pystr) (expected_max_len_chars : Z) :
  lawful G ->
  uniform_lsb bit img ->
  Core.detect_watermark_image img key expected_max_len_chars = Ok None.
Proof.
  intros HG Huni.
  pose proof (get_pixel_sequence_returns (size img).1 (size img).2 key HG) as Hret.
  destruct (Core._get_pixel_sequence (size img).1 (size img).2 key)
    as [locs|e|] eqn:Hlocs; [| |done].
  - rewrite (detect_watermark_image_unfold _ _ _ _ Hlocs).
    destruct (extract_loop_uniform (pixels img) bit
                (expected_max_len_chars * 8 * 2 + 16)%Z locs Huni 0) as [H|H];
      change (replicate 0 bit) with (@nil bool) in H; by rewrite H.
  - unfold Core.detect_watermark_image. destruct (size img) as [w h].
    simpl in Hlocs. by rewrite Hlocs.
Qed.

Lemma solid_image_lookup (w h : nat) (p q : pixel) (xy : nat * nat) :
  pixels (solid_image w h p) !! xy = Some q -> q = p.
Proof.
  unfold solid_image. simpl. intros H%elem_of_list_to_map_2.
  apply list_elem_of_fmap in H as (xy' & [= _ ->] & _). done.
Qed.

Lemma X8_uniform_image_has_no_watermark_witness :
  Core.detect_watermark_image (G := lcg) (solid_image 4 2 (200, 18, 64)%Z) [107%Z] 200
  = Ok None.
Proof.
  apply (X8_uniform_image_has_no_watermark (G := lcg) false); [exact lcg_lawful|].
  intros xy r g b H. apply solid_image_lookup in H. injection H as -> -> ->.
  split_and!; reflexivity.
Defined.

(** ** Further properties: the command line *)

Lemma truthy_Some (s : option pystr) :
  Cli.truthy s = true <-> exists t, s = Some t /\ t <> [].
Proof.
  destruct s as [[|c t]|]; simpl; split; try done.
  - intros (t & [= <-] & ?). done.
  - intros _. by eexists.
  - intros (t & ? & _). done.
Qed.

Section CliFacts.
Context {G : PRNG}.
Variable image_save : image -> pystr -> result image.
Variable add_watermark_text : pystr -> pystr -> pystr -> bool.
Variable detect_watermark_text : pystr -> option pystr.

Local Abbreviation main_cli :=
  (Cli.main_cli image_save add_watermark_text detect_watermark_text).

(** What [add_watermark_image] on paths returns, in terms of the embedding
    and of the save. *)
Lemma add_watermark_image_at_Some (input : option image) (path text key : pystr)
    (written : image) :
  Cli.add_watermark_image_at image_save input path text key = Ok (Some written) <->
  exists img img',
    input = Some img
    /\ Core.add_watermark_image img text key = Ok (Some img')
    /\ image_save img' path = Ok written.
Proof.
  unfold Cli.add_watermark_image_at. split.
  - destruct input as [img|]; [|done].
    intros ([img'|] & Hadd & Hsave)%bind_Ok; [|done].
    destruct (image_save img' path) as [w| |] eqn:Hw; simpl in Hsave; try done.
    injection Hsave as ->. by exists img, img'.
  - intros (img & img' & -> & -> & Hsave). simpl. by rewrite Hsave.
Qed.

(** X13.  Exit status of the command line.  When [main_cli] returns: with
    the libraries missing, or the key variable unset or empty, the status is
    1 and nothing is saved or reported; the status is 0, 1 or 2, and it is 2
    exactly when libraries and key are present and [add] has no output path;
    an image is saved exactly when the status is 0 for [add] on an image
    whose input file holds an image, the embedding of
    [add_watermark_image] into it succeeded, with the non-empty key of the
    environment and with the non-empty watermark of the arguments or, when
    that is absent or empty, the generated one, and [img.save] to the
    non-empty output path returned: the saved image is the one that save
    wrote; [add] on an image with status 0 has saved an image, so a save
    that raises gives status 1; a watermark is reported only with status 0,
    for [detect], and it is never the empty string. *)
Theorem X13_cli_exit_status (libraries_missing : bool) (environ_key : option pystr)
    (args : Cli.Namespace) (input : option image) (generated : pystr) (o : Cli.Outcome) :
  main_cli libraries_missing environ_key args input generated = Ok o ->
  (libraries_missing = true \/ environ_key = None \/ environ_key = Some [] ->
   o = Cli.exit_with 1)
  /\ (Cli.exit_code o = 0 \/ Cli.exit_code o = 1 \/ Cli.exit_code o = 2)%Z
  /\ (Cli.exit_code o = 2%Z <->
      libraries_missing = false /\ Cli.truthy environ_key = true
      /\ Cli.action args = Cli.add /\ Cli.truthy (Cli.output_path args) = false)
  /\ (forall written, Cli.saved o = Some written <->
        Cli.exit_code o = 0%Z
        /\ Cli.action args = Cli.add /\ Cli.media_type args = Cli.image_media
        /\ exists img img' key path text,
             input = Some img /\ environ_key = Some key /\ key <> []
             /\ Cli.output_path args = Some path /\ path <> []
             /\ (Cli.watermark args = Some text /\ text <> []
                 \/ Cli.truthy (Cli.watermark args) = false /\ text = generated)
             /\ Core.add_watermark_image img text key = Ok (Some img')
             /\ image_save img' path = Ok written)
  /\ (Cli.action args = Cli.add -> Cli.media_type args = Cli.image_media ->
      Cli.exit_code o = 0%Z -> is_Some (Cli.saved o))
  /\ (forall text, Cli.reported o = Some text ->
        Cli.exit_code o = 0%Z /\ Cli.action args = Cli.detect /\ text <> []).
Proof.
  intros Hrun.
  assert (Cli.action args = Cli.add -> Cli.media_type args = Cli.image_media ->
          Cli.exit_code o = 0%Z -> is_Some (Cli.saved o)) as Hsaved.
  { intros Ha Hm. unfold Cli.main_cli in Hrun. rewrite Ha, Hm in Hrun.
    destruct libraries_missing; [by injection Hrun as <-|].
    destruct (negb (Cli.truthy environ_key)); [by injection Hrun as <-|].
    destruct (negb (Cli.truthy (Cli.output_path args))); [by injection Hrun as <-|].
    apply bind_Ok in Hrun as ([written|] & _ & Hrun); injection Hrun as <-; [|done].
    intros _. by eexists. }
  enough ((libraries_missing = true \/ environ_key = None \/ environ_key = Some [] ->
           o = Cli.exit_with 1)
          /\ (Cli.exit_code o = 0 \/ Cli.exit_code o = 1 \/ Cli.exit_code o = 2)%Z
          /\ (Cli.exit_code o = 2%Z <->
              libraries_missing = false /\ Cli.truthy environ_key = true
              /\ Cli.action args = Cli.add /\ Cli.truthy (Cli.output_path args) = false)
          /\ (forall written, Cli.saved o = Some written <->
                Cli.exit_code o = 0%Z
                /\ Cli.action args = Cli.add /\ Cli.media_type args = Cli.image_media
                /\ exists img img' key path text,
                     input = Some img /\ environ_key = Some key /\ key <> []
                     /\ Cli.output_path args = Some path /\ path <> []
                     /\ (Cli.watermark args = Some text /\ text <> []
                         \/ Cli.truthy (Cli.watermark args) = false /\ text = generated)
                     /\ Core.add_watermark_image img text key = Ok (Some img')
                     /\ image_save img' path = Ok written)
          /\ (forall text, Cli.reported o = Some text ->
                Cli.exit_code o = 0%Z /\ Cli.action args = Cli.detect /\ text <> []))
    as (H1 & H2 & H3 & H4 & H5) by (by split_and!).
  clear Hsaved. revert Hrun. unfold Cli.main_cli. intros Hrun.
  destruct libraries_missing.
  { injection Hrun as <-. split_and!; [done|simpl; lia| | |done].
    - simpl. split; [done|]. by intros (? & _).
    - intros w. split; [done|]. simpl. by intros (? & _). }
  destruct (Cli.truthy environ_key) eqn:Hkey; cbn [negb] in Hrun.
  2:{ injection Hrun as <-. split_and!; [done|simpl; lia| | |done].
      - simpl. split; [done|]. by intros (_ & ? & _).
      - intros w. split; [done|]. simpl. by intros (? & _). }
  apply truthy_Some in Hkey as (key & -> & Hkey). cbn [from_option id] in Hrun.
  split.
  { intros [?|[?|?]]; simplify_eq. }
  destruct (Cli.action args) eqn:Haction.
  - destruct (Cli.truthy (Cli.output_path args)) eqn:Hout; cbn [negb] in Hrun.
    2:{ injection Hrun as <-. split_and!; [simpl; lia| | |done].
        - simpl. split; [|done]. intros _. split_and!; [done| |done..].
          by destruct key.
        - intros w. split; [done|]. simpl. by intros (? & _). }
    apply truthy_Some in Hout as (path & Hpath & Hne). rewrite Hpath in Hrun.
    cbn [from_option id] in Hrun.
    destruct (Cli.media_type args) eqn:Hmedia.
    + apply bind_Ok in Hrun as (success & Hadd & Hrun).
      destruct success as [written|]; injection Hrun as <-; simpl.
      * apply add_watermark_image_at_Some in Hadd as (img & img' & -> & Hadd & Hsave).
        split_and!; [lia| | |done].
        { split; [done|]. intros (_ & _ & _ & ?). congruence. }
        intros w. split.
        -- intros [= <-]. split_and!; [done..|].
           destruct (Cli.truthy (Cli.watermark args)) eqn:Hw; cbn [negb] in Hadd.
           ++ apply truthy_Some in Hw as (text & Hw & Htext). rewrite Hw in Hadd |- *.
              exists img, img', key, path, text. split_and!; [done..|by left|done|done].
           ++ exists img, img', key, path, generated.
              split_and!; [done..|by right|done|done].
        -- intros (_ & _ & _ & img0 & img0' & key0 & path0 & text0
                   & [= <-] & [= <-] & _ & Hp0 & _ & Htext0 & Hadd0 & Hsave0).
           rewrite Hpath in Hp0. injection Hp0 as <-.
           assert (text0 = (if negb (Cli.truthy (Cli.watermark args)) then generated
                            else default [] (Cli.watermark args))) as Heq.
           { destruct Htext0 as [[Hw Hne0]|[Hw ->]]; rewrite Hw; [|done].
             by destruct text0. }
           rewrite <- Heq in Hadd. rewrite Hadd in Hadd0. injection Hadd0 as <-.
           rewrite Hsave in Hsave0. by injection Hsave0 as <-.
      * split_and!; [lia| | |done].
        { split; [done|]. intros (_ & _ & _ & ?). congruence. }
        intros w. split; [done|]. by intros (? & _).
    + destruct (add_watermark_text _ _ _); injection Hrun as <-; simpl.
      all: split_and!; [lia| | |done].
      all: try (split; [done|]; intros (_ & _ & _ & ?); congruence).
      all: intros w; split; [done|]; by intros (_ & _ & ? & _).
    + injection Hrun as <-. simpl. split_and!; [lia| | |done].
      * split; [done|]. intros (_ & _ & _ & ?). congruence.
      * intros w. split; [done|]. by intros (? & _).
  - apply bind_Ok in Hrun as (detected & _ & Hrun).
    destruct (Cli.truthy detected) eqn:Hd; injection Hrun as <-; simpl.
    2:{ split_and!; [lia| | |done].
        - split; [done|]. by intros (_ & _ & ? & _).
        - intros w. split; [done|]. by intros (? & _). }
    apply truthy_Some in Hd as (text & -> & Htext).
    split_and!; [lia| | |].
    + split; [done|]. by intros (_ & _ & ? & _).
    + intros w. split; [done|]. by intros (_ & ? & _).
    + intros ? [= <-]. done.
Qed.

(** X14.  Round trip through the command line.  For a well-formed input
    image, a non-empty encodable key in the environment, a generator that
    meets the contract of [_randbelow] and an output path to which
    [img.save] writes every image without loss: [add] on the image with a
    non-empty encodable watermark that fits (the one of the arguments, or
    the generated one when the arguments give none) exits with 0 and saves
    an image; [detect] on the saved image with a [--max_len] that covers
    the watermark exits with 0 and reports that watermark. *)
Theorem X14_cli_round_trip (img : image) (key path text generated generated' : pystr)
    (kb tb : list Z) (add_args detect_args : Cli.Namespace) :
  lawful G ->
  wf_image img ->
  key <> [] ->
  utf8_encode key = Some kb ->
  Cli.action add_args = Cli.add ->
  Cli.media_type add_args = Cli.image_media ->
  Cli.output_path add_args = Some path ->
  path <> [] ->
  (forall written : image, image_save written path = Ok written) ->
  (Cli.watermark add_args = Some text
   \/ Cli.truthy (Cli.watermark add_args) = false /\ text = generated) ->
  text <> [] ->
  utf8_encode text = Some tb ->
  (length tb * 8 + 16 <= (size img).1 * (size img).2 * 3)%nat ->
  Cli.action detect_args = Cli.detect ->
  Cli.media_type detect_args = Cli.image_media ->
  (Z.of_nat (length tb * 8) + 16 <= Cli.max_len detect_args * 8 * 2 + 16)%Z ->
  exists img',
    main_cli false (Some key) add_args (Some img) generated
    = Ok {| Cli.exit_code := 0; Cli.saved := Some img'; Cli.reported := None |}
    /\ main_cli false (Some key) detect_args (Some img') generated'
       = Ok {| Cli.exit_code := 0; Cli.saved := None; Cli.reported := Some text |}.
Proof.
  intros HG Hwf Hkey Hkb Ha Hm Hout Hpath Hsave Htext Hne Htb Hfit Ha' Hm' Hbound.
  destruct (get_pixel_sequence_total HG (size img).1 (size img).2 key kb Hkb)
    as [locs Hlocs].
  destruct (round_trip_along img text key key tb locs (Cli.max_len detect_args))
    as (img' & Hadd & Hdetect); [done..|].
  exists img'. unfold Cli.main_cli.
  assert (Cli.truthy (Some key) = true) as -> by (by destruct key).
  assert (Cli.truthy (Some path) = true) as Hpt by (by destruct path).
  rewrite Ha, Hm, Hout, Hpt, Ha', Hm'. cbn [negb from_option id].
  split.
  - replace (if negb (Cli.truthy (Cli.watermark add_args)) then generated
             else default [] (Cli.watermark add_args)) with text.
    + assert (Cli.add_watermark_image_at image_save (Some img) path text key
              = Ok (Some img')) as ->; [|done].
      apply add_watermark_image_at_Some. by exists img, img'.
    + destruct Htext as [Hw|[Hw ->]]; rewrite Hw; [|done]. by destruct text.
  - simpl. rewrite Hdetect. simpl. by destruct text.
Qed.

(** X15.  The empty watermark on the command line.  For a well-formed image
    with at least 16 bit slots, a non-empty encodable key and a generator
    that meets the contract of [_randbelow]: [add_watermark_image] embeds
    the empty string and [detect_watermark_image] returns it from the
    result, but [detect] of the command line on that image exits with 1 and
    reports nothing, as for an image without a watermark. *)
Theorem X15_cli_reports_empty_watermark_as_absent (img : image) (key generated : pystr)
    (kb : list Z) (args : Cli.Namespace) :
  lawful G ->
  wf_image img ->
  key <> [] ->
  utf8_encode key = Some kb ->
  (16 <= (size img).1 * (size img).2 * 3)%nat ->
  Cli.action args = Cli.detect ->
  Cli.media_type args = Cli.image_media ->
  (0 <= Cli.max_len args)%Z ->
  exists img',
    Core.add_watermark_image img [] key = Ok (Some img')
    /\ Core.detect_watermark_image img' key (Cli.max_len args) = Ok (Some [])
    /\ main_cli false (Some key) args (Some img') generated = Ok (Cli.exit_with 1).
Proof.
  intros HG Hwf Hkey Hkb Hfit Ha Hm Hlen.
  destruct (get_pixel_sequence_total HG (size img).1 (size img).2 key kb Hkb)
    as [locs Hlocs].
  destruct (round_trip_along img [] key key [] locs (Cli.max_len args))
    as (img' & Hadd & Hdetect); [done..|simpl; lia|simpl; lia|].
  exists img'. split_and!; [done..|].
  unfold Cli.main_cli.
  assert (Cli.truthy (Some key) = true) as -> by (by destruct key).
  rewrite Ha, Hm. cbn [negb from_option id]. simpl. by rewrite Hdetect.
Qed.
End CliFacts.

Lemma X13_cli_exit_status_witness :
  exists o,
    Cli.main_cli (G := lcg) png_save (fun _ _ _ => false) (fun _ => None) false
      (Some [107; 49]%Z)
      {| Cli.action := Cli.add; Cli.media_type := Cli.image_media;
         Cli.output_path := Some [111; 46; 112; 110; 103]%Z;
         Cli.watermark := Some [65]%Z; Cli.max_len := 200 |}
      (Some sample_image) [] = Ok o
    /\ (Cli.exit_code o = 0 \/ Cli.exit_code o = 1 \/ Cli.exit_code o = 2)%Z.
Proof.
  destruct (add_watermark_image_succeeds (G := lcg) sample_image [65]%Z [107; 49]%Z
              [65]%Z [107; 49]%Z lcg_lawful sample_image_wf eq_refl eq_refl)
    as [img' Hadd]; [simpl; lia|].
  assert (Cli.main_cli (G := lcg) png_save (fun _ _ _ => false) (fun _ => None) false
            (Some [107; 49]%Z)
            {| Cli.action := Cli.add; Cli.media_type := Cli.image_media;
               Cli.output_path := Some [111; 46; 112; 110; 103]%Z;
               Cli.watermark := Some [65]%Z; Cli.max_len := 200 |}
            (Some sample_image) []
          = Ok {| Cli.exit_code := 0; Cli.saved := Some img'; Cli.reported := None |})
    as Hrun.
  { unfold Cli.main_cli, Cli.add_watermark_image_at.
    cbn [Cli.truthy Cli.action Cli.media_type Cli.output_path Cli.watermark negb
         from_option id].
    rewrite Hadd. reflexivity. }
  eexists. split; [exact Hrun|].
  exact (proj1 (proj2 (X13_cli_exit_status (G := lcg) _ _ _ _ _ _ _ _ _ Hrun))).
Defined.

Lemma X14_cli_round_trip_witness :
  exists img',
    Cli.main_cli (G := lcg) png_save (fun _ _ _ => false) (fun _ => None) false
      (Some [107; 49]%Z)
      {| Cli.action := Cli.add; Cli.media_type := Cli.image_media;
         Cli.output_path := Some [111; 46; 112; 110; 103]%Z;
         Cli.watermark := Some [65]%Z; Cli.max_len := 200 |}
      (Some sample_image) []
    = Ok {| Cli.exit_code := 0; Cli.saved := Some img'; Cli.reported := None |}
    /\ Cli.main_cli (G := lcg) png_save (fun _ _ _ => false) (fun _ => None) false
         (Some [107; 49]%Z)
         {| Cli.action := Cli.detect; Cli.media_type := Cli.image_media;
            Cli.output_path := None; Cli.watermark := None; Cli.max_len := 200 |}
         (Some img') []
       = Ok {| Cli.exit_code := 0; Cli.saved := None; Cli.reported := Some [65]%Z |}.
Proof.
  apply (X14_cli_round_trip (G := lcg) png_save (fun _ _ _ => false) (fun _ => None)
           sample_image [107; 49]%Z [111; 46; 112; 110; 103]%Z [65]%Z [] []
           [107; 49]%Z [65]%Z
           {| Cli.action := Cli.add; Cli.media_type := Cli.image_media;
              Cli.output_path := Some [111; 46; 112; 110; 103]%Z;
              Cli.watermark := Some [65]%Z; Cli.max_len := 200 |}
           {| Cli.action := Cli.detect; Cli.media_type := Cli.image_media;
              Cli.output_path := None; Cli.watermark := None; Cli.max_len := 200 |}
           lcg_lawful sample_image_wf).
  - discriminate.
  - reflexivity.
  - reflexivity.
  - reflexivity.
  - reflexivity.
  - discriminate.
  - intros written. reflexivity.
  - left. reflexivity.
  - discriminate.
  - reflexivity.
  - simpl. lia.
  - reflexivity.
  - reflexivity.
  - simpl. lia.
Defined.

Lemma X15_cli_reports_empty_watermark_as_absent_witness :
  exists img',
    Core.add_watermark_image (G := lcg) sample_image [] [107; 49]%Z = Ok (Some img')
    /\ Core.detect_watermark_image (G := lcg) img' [107; 49]%Z 200 = Ok (Some [])
    /\ Cli.main_cli (G := lcg) png_save (fun _ _ _ => false) (fun _ => None) false
         (Some [107; 49]%Z)
         {| Cli.action := Cli.detect; Cli.media_type := Cli.image_media;
            Cli.output_path := None; Cli.watermark := None; Cli.max_len := 200 |}
         (Some img') []
       = Ok (Cli.exit_with 1).
Proof.
  apply (X15_cli_reports_empty_watermark_as_absent (G := lcg) png_save
           (fun _ _ _ => false) (fun _ => None) sample_image [107; 49]%Z []
           [107; 49]%Z
           {| Cli.action := Cli.detect; Cli.media_type := Cli.image_media;
              Cli.output_path := None; Cli.watermark := None; Cli.max_len := 200 |}
           lcg_lawful sample_image_wf).
  - discriminate.
  - reflexivity.
  - simpl. lia.
  - reflexivity.
  - reflexivity.
  - simpl. lia.
Defined.
